(** * Git Blame Gutter: the blame parser and the heat mapper

    A shallow embedding of [src/extension.ts]: the parsing loop of
    [getBlameInfo] (the callback that turns the output of
    [git blame --incremental] into [BlameLine]s), [applyDecorations]
    (the per-line render instructions), [getColorFromRatio] and the
    controller [GitBlameGutter] with the handlers of [activate], together
    with the part of the JavaScript platform they call: numbers,
    [parseInt], the string methods, the calendar fields of [Date] and
    binary64 rounding. *)

From Stdlib Require Import ZArith QArith Lia Bool Ascii String List.
From stdpp Require Import base option list strings gmap.

Local Open Scope Z_scope.

(** ** The JavaScript platform *)

Module JS.

(** *** Numbers

    Every number this program handles, except the age ratio, is an integer,
    [NaN] or an infinity: results of [parseInt], sums and differences of
    those, loop counters, the fields of a [Date].  [Fin z] is the binary64
    value equal to the integer [z]; [-0] is identified with [+0], which no
    operation used here ([<], [>], [!==], [+], [-], [Map] keys compared by
    SameValueZero, [ToString]) tells apart. *)
Inductive number : Type :=
| NaN
| Infinity (neg : bool)
| Fin (z : Z).

Definition number_eq_dec (a b : number) : {a = b} + {a <> b}.
Proof. decide equality; [apply bool_dec | apply Z.eq_dec]. Defined.

#[global] Instance number_eq_decision : EqDecision number := number_eq_dec.

(** Round-to-nearest, ties-to-even conversion of a mathematical integer to
    binary64 (the operation written F in ECMAScript): exact below 2^53,
    a multiple of [2^e] with a 53-bit significand above, an infinity from
    [2^1024 - 2^970] on. *)
Definition toDouble (z : Z) : number :=
  let a := Z.abs z in
  if a <? 2 ^ 53 then Fin z
  else
    let e := Z.log2 a - 52 in
    let q := a / 2 ^ e in
    let r := a mod 2 ^ e in
    let half := 2 ^ (e - 1) in
    let q' := if (r <? half) || ((r =? half) && Z.even q) then q else q + 1 in
    let v := q' * 2 ^ e in
    if 2 ^ 1024 <=? v then Infinity (z <? 0) else Fin (Z.sgn z * v).

(** [a < b]; false as soon as one side is [NaN]. *)
Definition lt (a b : number) : bool :=
  match a, b with
  | NaN, _ | _, NaN => false
  | Infinity true, Infinity true => false
  | Infinity true, _ => true
  | _, Infinity true => false
  | Infinity false, _ => false
  | Fin _, Infinity false => true
  | Fin x, Fin y => x <? y
  end.

(** [a > b]. *)
Definition gt (a b : number) : bool := lt b a.

(** [a !== b] on numbers: [NaN] differs from everything, itself included. *)
Definition strictNe (a b : number) : bool :=
  match a, b with
  | NaN, _ | _, NaN => true
  | _, _ => negb (bool_decide (a = b))
  end.

(** SameValueZero, the key equality of [Map]: [NaN] equals [NaN]. *)
Definition sameValueZero (a b : number) : bool := bool_decide (a = b).

Definition add (a b : number) : number :=
  match a, b with
  | NaN, _ | _, NaN => NaN
  | Infinity s, Infinity s' => if Bool.eqb s s' then Infinity s else NaN
  | Infinity s, Fin _ | Fin _, Infinity s => Infinity s
  | Fin x, Fin y => toDouble (x + y)
  end.

Definition neg (a : number) : number :=
  match a with
  | NaN => NaN
  | Infinity s => Infinity (negb s)
  | Fin x => Fin (- x)
  end.

Definition sub (a b : number) : number := add a (neg b).

Definition mul (a b : number) : number :=
  match a, b with
  | NaN, _ | _, NaN => NaN
  | Infinity s, Infinity s' => Infinity (xorb s s')
  | Infinity s, Fin y | Fin y, Infinity s =>
      if y =? 0 then NaN else Infinity (xorb s (y <? 0))
  | Fin x, Fin y => toDouble (x * y)
  end.

(** The age ratio is the one number that is not an integer.  The quotient
    of two integer-valued numbers is kept as the exact fraction in lowest
    terms; JavaScript rounds it to the nearest binary64, which leaves the
    values 0 and 1 as they are. *)
Inductive ratio : Type :=
| RatioNaN
| RatioInf (neg : bool)
| Ratio (q : Q).

Definition div (a b : number) : ratio :=
  match a, b with
  | NaN, _ | _, NaN => RatioNaN
  | Infinity _, Infinity _ => RatioNaN
  | Infinity s, Fin y => RatioInf (xorb s (y <? 0))
  | Fin _, Infinity _ => Ratio (0 # 1)
  | Fin x, Fin y =>
      if y =? 0 then (if x =? 0 then RatioNaN else RatioInf (x <? 0))
      else Ratio (Qred (Qmake (x * Z.sgn y) (Z.to_pos (Z.abs y))))
  end.

(** *** Strings

    A string is its sequence of code units; the model covers the code units
    below 256, one [ascii] each. *)

(** WhiteSpace and LineTerminator code units below 256: TAB, LF, VT, FF, CR,
    SP and NBSP. *)
Definition isWhiteSpace (c : ascii) : bool :=
  let n := N_of_ascii c in
  ((9 <=? n) && (n <=? 13) || (n =? 32) || (n =? 160))%N.

Fixpoint trimStart (s : string) : string :=
  match s with
  | String c r => if isWhiteSpace c then trimStart r else s
  | EmptyString => EmptyString
  end.

Fixpoint trimEnd (s : string) : string :=
  match s with
  | EmptyString => EmptyString
  | String c r =>
      match trimEnd r with
      | EmptyString => if isWhiteSpace c then EmptyString else String c EmptyString
      | r' => String c r'
      end
  end.

(** [s.trim()] *)
Definition trim (s : string) : string := trimEnd (trimStart s).

(** [s.split(sep)] for a one-character separator: never empty. *)
Fixpoint split (sep : ascii) (s : string) : list string :=
  match s with
  | EmptyString => [EmptyString]
  | String c r =>
      if Ascii.eqb c sep then EmptyString :: split sep r
      else match split sep r with
           | p :: ps => String c p :: ps
           | [] => [String c EmptyString]
           end
  end.

(** [s.startsWith(p)] *)
Definition startsWith (p s : string) : bool := String.prefix p s.

(** [s.substring(n)] *)
Fixpoint substringFrom (n : nat) (s : string) : string :=
  match n, s with
  | O, _ => s
  | S n', String _ r => substringFrom n' r
  | S _, EmptyString => EmptyString
  end.

(** [s.substring(0, n)] *)
Fixpoint substringTo (n : nat) (s : string) : string :=
  match n, s with
  | S n', String c r => String c (substringTo n' r)
  | _, _ => EmptyString
  end.

(** [c.repeat(n)] for a one-character string. *)
Fixpoint repeat (c : ascii) (n : nat) : string :=
  match n with
  | O => EmptyString
  | S n' => String c (repeat c n')
  end.

(** [s.padStart(n, c)] and [s.padEnd(n, c)] for a one-character filler. *)
Definition padStart (n : nat) (c : ascii) (s : string) : string :=
  (repeat c (n - String.length s) ++ s)%string.

Definition padEnd (n : nat) (c : ascii) (s : string) : string :=
  (s ++ repeat c (n - String.length s))%string.

(** *** parseInt *)

(** Value of a digit in the given radix (10 or 16). *)
Definition digitValue (radix : Z) (c : ascii) : option Z :=
  let n := Z.of_N (N_of_ascii c) in
  let v := if (48 <=? n) && (n <=? 57) then n - 48
           else if (97 <=? n) && (n <=? 122) then n - 87
           else if (65 <=? n) && (n <=? 90) then n - 55
           else radix in
  if v <? radix then Some v else None.

(** The mathematical value of the longest prefix of digits, and whether
    that prefix is non-empty. *)
Fixpoint digitsValue (radix : Z) (s : string) (acc : Z) (seen : bool) : option Z :=
  match s with
  | String c r =>
      match digitValue radix c with
      | Some v => digitsValue radix r (acc * radix + v) true
      | None => if seen then Some acc else None
      end
  | EmptyString => if seen then Some acc else None
  end.

(** [parseInt(s)] with no radix argument: leading white space is skipped,
    a sign is read, [0x] or [0X] switches to radix 16, the longest prefix
    of digits is the value, and no digit at all gives [NaN]. *)
Definition parseInt (s : string) : number :=
  let s1 := trimStart s in
  let '(negative, s2) :=
    match s1 with
    | String "-" r => (true, r)
    | String "+" r => (false, r)
    | _ => (false, s1)
    end in
  let '(radix, s3) :=
    match s2 with
    | String "0" (String "x" r) | String "0" (String "X" r) => (16, r)
    | _ => (10, s2)
    end in
  match digitsValue radix s3 0 false with
  | None => NaN
  | Some m => toDouble (if negative then - m else m)
  end.

(** [parseInt(x)] where [x] may be [undefined] (an array read out of
    range): the argument is first converted to a string. *)
Definition parseIntArg (x : option string) : number :=
  parseInt (default "undefined"%string x).

(** *** Number to string *)

Definition digitChar (d : Z) : ascii := ascii_of_N (Z.to_N (48 + d)).

Fixpoint decimalDigits (fuel : nat) (n : Z) (acc : string) : string :=
  let acc' := String (digitChar (n mod 10)) acc in
  match fuel with
  | O => acc'
  | S f => if n / 10 =? 0 then acc' else decimalDigits f (n / 10) acc'
  end.

(** Decimal digits of a natural number; [Z.log2 n] bounds their count. *)
Definition decimal (n : Z) : string :=
  decimalDigits (Z.to_nat (Z.log2 n)) n EmptyString.

(** [ToString] of a number, as a template literal or [toString()] applies
    it.  The integers converted by this program are calendar fields, far
    below 10^21 where the exponent notation would start. *)
Definition toString (x : number) : string :=
  match x with
  | NaN => "NaN"
  | Infinity false => "Infinity"
  | Infinity true => "-Infinity"
  | Fin z => if z <? 0 then String "-" (decimal (- z)) else decimal z
  end.

(** *** Date

    A [Date] holds a time value: milliseconds since the epoch, or [NaN]
    (an invalid date), here [None]. *)
Definition Date : Type := option Z.

(** [new Date(value)]: TimeClip of the number. *)
Definition newDate (value : number) : Date :=
  match value with
  | Fin t => if Z.abs t <=? 8640000000000000 then Some t else None
  | _ => None
  end.

Definition msPerDay : Z := 86400000.

(** [Day(t)] *)
Definition Day (t : Z) : Z := t / msPerDay.

(** Year of the era (counted from March 1), month (1 to 12) and day of the
    month of a day of a 400-year era, the eras starting on March 1 of the
    years divisible by 400; January and February belong to the next
    calendar year. *)
Definition civilOfEra (doe : Z) : Z * Z * Z :=
  let yoe := (doe - doe / 1460 + doe / 36524 - doe / 146096) / 365 in
  let doy := doe - (365 * yoe + yoe / 4 - yoe / 100) in
  let mp := (5 * doy + 2) / 153 in
  let d := doy - (153 * mp + 2) / 5 + 1 in
  let m := if mp <? 10 then mp + 3 else mp - 9 in
  (yoe + (if m <=? 2 then 1 else 0), m, d).

(** Year, month (1 to 12) and day of the month of a day number counted from
    1970-01-01 in the proleptic Gregorian calendar, by the usual
    era / day-of-era computation. *)
Definition civilFromDays (days : Z) : Z * Z * Z :=
  let z := days + 719468 in
  let '(y, m, d) := civilOfEra (z mod 146097) in
  (y + z / 146097 * 400, m, d).

Definition YearFromTime (t : Z) : Z := fst (fst (civilFromDays (Day t))).
Definition MonthFromTime (t : Z) : Z := snd (fst (civilFromDays (Day t))) - 1.
Definition DateFromTime (t : Z) : Z := snd (civilFromDays (Day t)).

Section LocalTime.
(** The offset of local time from UTC, in milliseconds, at a given time
    value: the time zone of the host. *)
Variable LocalTZA : Z -> Z.

Definition LocalTime (t : Z) : Z := t + LocalTZA t.

Definition getFullYear (d : Date) : number :=
  match d with
  | None => NaN
  | Some t => Fin (YearFromTime (LocalTime t))
  end.

Definition getMonth (d : Date) : number :=
  match d with
  | None => NaN
  | Some t => Fin (MonthFromTime (LocalTime t))
  end.

Definition getDate (d : Date) : number :=
  match d with
  | None => NaN
  | Some t => Fin (DateFromTime (LocalTime t))
  end.
End LocalTime.

(** *** Arrays *)

(** An array holds at most [2^32 - 1] elements: [push] on an array of that
    length throws a RangeError. *)
Definition MAX_ARRAY_LENGTH : Z := 2 ^ 32 - 1.

End JS.

Import JS.

#[global] Instance number_countable : Countable number :=
  inj_countable'
    (fun x => match x with
              | NaN => inl ()
              | Infinity s => inr (inl s)
              | Fin z => inr (inr z)
              end)
    (fun y => match y with
              | inl _ => NaN
              | inr (inl s) => Infinity s
              | inr (inr z) => Fin z
              end)
    (fun x => match x with NaN | Infinity _ | Fin _ => eq_refl end).

(** ** Data model of [extension.ts] *)

(** [interface BlameInfo]; a missing [summary] is [None]. *)
Record BlameInfo : Type := mkBlameInfo {
  hash : string;
  author : string;
  time : number;
  summary : option string
}.

(** [interface BlameLine].  The field [info] is a reference to a
    [BlameInfo] object: an address of type [R] while the objects are still
    being mutated, the object itself once they are final. *)
Record BlameLine (R : Type) : Type := mkBlameLine {
  line : number;
  info : R
}.
Arguments mkBlameLine {R} _ _.
Arguments line {R} _.
Arguments info {R} _.

Definition GUTTER_WIDTH_CHARS : nat := 18.

(** The hash of lines that are not committed yet. *)
Definition ZERO_HASH : string := "0000000000000000000000000000000000000000".

(** ** [getBlameInfo]: the parsing callback *)

(** Outcome of running code that may throw. *)
Inductive outcome (A : Type) : Type :=
| Returned (a : A)
| Thrown.
Arguments Returned {A} _.
Arguments Thrown {A}.

Definition bind {A B : Type} (x : outcome A) (f : A -> outcome B) : outcome B :=
  match x with
  | Returned a => f a
  | Thrown => Thrown
  end.

(** Addresses of the [BlameInfo] objects allocated by the parser. *)
Abbreviation addr := nat.

(** The variables of the callback: the objects allocated so far ([heap],
    indexed by address), [blameMap] from hash to the object of that hash,
    the [result] array and [currentHash]. *)
Record state : Type := mkState {
  heap : list BlameInfo;
  blameMap : gmap string addr;
  result : list (BlameLine addr);
  currentHash : string
}.

Definition initial : state :=
  {| heap := []; blameMap := ∅; result := []; currentHash := EmptyString |}.

Definition isLowerHex (c : ascii) : bool :=
  let n := N_of_ascii c in
  ((48 <=? n) && (n <=? 57) || (97 <=? n) && (n <=? 102))%N.

Fixpoint allChars (p : ascii -> bool) (s : string) : bool :=
  match s with
  | EmptyString => true
  | String c r => p c && allChars p r
  end.

(** [/^[0-9a-f]{40}$/.test(s)] *)
Definition isHash (s : string) : bool :=
  (String.length s =? 40)%nat && allChars isLowerHex s.

(** Number of times the body of [for (let j = 0; j < count; j++)] runs, if
    the loop ends at all. *)
Definition iterations (count : number) : option Z :=
  match count with
  | Fin c => Some (Z.max 0 c)
  | NaN | Infinity true => Some 0
  | Infinity false => None
  end.

(** The loop that pushes [{ line: lineNum + j, info }] for each [j] below
    [count].  A push that finds the array full throws, which an endless
    loop always reaches; a loop that does not run leaves the array as it
    is. *)
Definition pushLines (lineNum count : number) (a : addr)
    (result : list (BlameLine addr)) : outcome (list (BlameLine addr)) :=
  match iterations count with
  | Some n =>
      if (n =? 0) || (Z.of_nat (length result) + n <=? MAX_ARRAY_LENGTH)
      then Returned (result ++ ((fun j => mkBlameLine (add lineNum (Fin j)) a) <$> seqZ 0 n))
      else Thrown
  | None => Thrown
  end.

(** The branch taken for a line whose first field is a hash. *)
Definition header (st : state) (hash : string) (parts : list string) : outcome state :=
  let lineNum := parseIntArg (parts !! 2%nat) in
  let count := parseIntArg (parts !! 3%nat) in
  let '(heap', blameMap', a) :=
    match blameMap st !! hash with
    | Some a => (heap st, blameMap st, a)
    | None =>
        (heap st ++ [mkBlameInfo hash EmptyString (Fin 0) None],
         <[hash := length (heap st)]> (blameMap st),
         length (heap st))
    end in
  bind (if bool_decide (hash <> ZERO_HASH)
        then pushLines lineNum count a (result st)
        else Returned (result st))
       (fun result' => Returned (mkState heap' blameMap' result' hash)).

Definition setAuthor (v : string) (b : BlameInfo) : BlameInfo :=
  mkBlameInfo (hash b) v (time b) (summary b).
Definition setTime (v : number) (b : BlameInfo) : BlameInfo :=
  mkBlameInfo (hash b) (author b) v (summary b).
Definition setSummary (v : string) (b : BlameInfo) : BlameInfo :=
  mkBlameInfo (hash b) (author b) (time b) (Some v).

(** The field assignment made by a line that is not a header, if any. *)
Definition metadata (line : string) : option (BlameInfo -> BlameInfo) :=
  if startsWith "author " line then
    Some (setAuthor (trim (substringFrom 7 line)))
  else if startsWith "author-time " line then
    Some (setTime (parseInt (trim (substringFrom 12 line))))
  else if startsWith "summary " line then
    Some (setSummary (trim (substringFrom 8 line)))
  else None.

(** In-place update of the object at address [a]. *)
Definition mutate (a : addr) (f : BlameInfo -> BlameInfo) (st : state) : state :=
  mkState (alter f a (heap st)) (blameMap st) (result st) (currentHash st).

(** One turn of the loop over [lines]. *)
Definition step (st : state) (line : string) : outcome state :=
  match line with
  | EmptyString => Returned st
  | _ =>
      let parts := split " " line in
      let hash := default EmptyString (head parts) in
      if isHash hash then header st hash parts
      else
        match blameMap st !! currentHash st with
        | None => Returned st
        | Some a =>
            match metadata line with
            | Some f => Returned (mutate a f st)
            | None => Returned st
            end
        end
  end.

Fixpoint run (st : state) (lines : list string) : outcome state :=
  match lines with
  | [] => Returned st
  | l :: ls => bind (step st l) (fun st' => run st' ls)
  end.

Definition LF : ascii := ascii_of_nat 10.

(** The loop over [stdout.split('\n')], from the initial variables. *)
Definition parseState (stdout : string) : outcome state :=
  run initial (split LF stdout).

(** The object a reference points to, once parsing is over. *)
Definition deref (h : list BlameInfo) (l : BlameLine addr) : option (BlameLine BlameInfo) :=
  mkBlameLine (line l) <$> h !! info l.

(** What the promise resolves to: the [result] array, each entry with the
    final content of the object it references.  [None] would be a dangling
    reference. *)
Definition resolved (st : state) : list (BlameLine BlameInfo) :=
  omap (deref (heap st)) (result st).

Definition parseLines (lines : list string) : outcome (list (BlameLine BlameInfo)) :=
  bind (run initial lines) (fun st => Returned (resolved st)).

Definition parse (stdout : string) : outcome (list (BlameLine BlameInfo)) :=
  parseLines (split LF stdout).

(** ** [applyDecorations] *)

(** [backgroundColor]: ['transparent'], or the string returned by
    [getColorFromRatio(ratio)] under the current theme, kept as its two
    inputs. *)
Inductive background : Type :=
| transparent
| colorFromRatio (isDarkTheme : bool) (r : ratio).

(** One [DecorationOptions]: the line of its (empty) range and the
    [before] render options. *)
Record Decoration : Type := mkDecoration {
  rangeLine : nat;
  contentText : string;
  backgroundColor : background;
  color : option string
}.

Definition NBSP : ascii := ascii_of_nat 160.

Section Render.
Variable LocalTZA : Z -> Z.
Variable isDarkTheme : bool.

(** The callback of the [forEach] that finds the range of ages in the
    file, on the pair [(minTime, maxTime)]. *)
Definition updateRange (range : number * number) (l : BlameLine BlameInfo) : number * number :=
  let '(minTime, maxTime) := range in
  (if lt (time (info l)) minTime then time (info l) else minTime,
   if gt (time (info l)) maxTime then time (info l) else maxTime).

Definition timeRange (blameLines : list (BlameLine BlameInfo)) : number * number :=
  foldl updateRange (Infinity false, Infinity true) blameLines.

(** [lineToBlame]: each entry stored under its 0-based line, a later
    entry replacing an earlier one with the same key. *)
Definition setLine (m : gmap number BlameInfo) (l : BlameLine BlameInfo) : gmap number BlameInfo :=
  <[sub (line l) (Fin 1) := info l]> m.

Definition lineToBlame (blameLines : list (BlameLine BlameInfo)) : gmap number BlameInfo :=
  foldl setLine ∅ blameLines.

Definition dateStr (t : number) : string :=
  let date := newDate (mul t (Fin 1000)) in
  (toString (getFullYear LocalTZA date) ++ "/"
   ++ padStart 2 "0" (toString (add (getMonth LocalTZA date) (Fin 1))) ++ "/"
   ++ padStart 2 "0" (toString (getDate LocalTZA date)))%string.

Definition authorLabel (name : string) : string :=
  let author := match name with EmptyString => "Unknown"%string | _ => name end in
  if (6 <? String.length author)%nat then substringTo 6 author
  else padEnd 6 " " author.

Definition label (i : BlameInfo) : string :=
  (dateStr (time i) ++ " " ++ authorLabel (author i))%string.

Definition ageRatio (minTime maxTime t : number) : ratio :=
  if strictNe maxTime minTime && strictNe minTime (Infinity false)
  then div (sub maxTime t) (sub maxTime minTime)
  else Ratio (0 # 1).

Definition placeholder (i : nat) : Decoration :=
  mkDecoration i (repeat NBSP GUTTER_WIDTH_CHARS) transparent None.

(** The body of the loop over the lines of the document. *)
Definition decorate (minTime maxTime : number) (m : gmap number BlameInfo)
    (i : nat) : Decoration :=
  match m !! Fin (Z.of_nat i) with
  | Some b =>
      if gt (time b) (Fin 0) then
        mkDecoration i (label b)
          (colorFromRatio isDarkTheme (ageRatio minTime maxTime (time b)))
          (Some (if isDarkTheme then "#cccccc" else "#555555")%string)
      else placeholder i
  | None => placeholder i
  end.

(** The array handed to [setDecorations], for a document of [lineCount]
    lines. *)
Definition applyDecorations (lineCount : nat)
    (blameLines : list (BlameLine BlameInfo)) : list Decoration :=
  let '(minTime, maxTime) := timeRange blameLines in
  decorate minTime maxTime (lineToBlame blameLines) <$> seq 0 lineCount.
End Render.

(** ** [getColorFromRatio] *)

(** [floor (log2 (n / d))] *)
Definition log2Q (n d : positive) : Z :=
  let c := Z.log2 (Zpos n) - Z.log2 (Zpos d) in
  if (if 0 <=? c then Zpos d * 2 ^ c <=? Zpos n else Zpos d <=? Zpos n * 2 ^ (- c))
  then c else c - 1.

(** The integer nearest to [n / d], the even one of two equally near. *)
Definition roundHalfEven (n : Z) (d : positive) : Z :=
  let fl := n / Zpos d in
  let r := n mod Zpos d in
  if 2 * r <? Zpos d then fl
  else if Zpos d <? 2 * r then fl + 1
  else if Z.even fl then fl else fl + 1.

(** The binary64 nearest to the fraction [n / d], as a fraction in lowest
    terms: a 53-bit significand times [2^e], with [e] no lower than -1074
    (subnormal numbers), and an overflow from [2^1024] on. *)
Definition magnitude64 (n d : positive) : option Q :=
  let e := Z.max (log2Q n d - 52) (-1074) in
  if 0 <=? e then
    let m := roundHalfEven (Zpos n) (d * Z.to_pos (2 ^ e)) in
    if 2 ^ 1024 <=? m * 2 ^ e then None else Some (Qred (m * 2 ^ e # 1))
  else
    let m := roundHalfEven (Zpos n * 2 ^ (- e)) d in
    Some (Qred (m # Z.to_pos (2 ^ (- e)))).

(** Rounding of an exact fraction to binary64. *)
Definition toBinary64 (q : Q) : ratio :=
  match Qnum q with
  | 0 => Ratio (0 # 1)
  | Zpos n =>
      match magnitude64 n (Qden q) with
      | Some v => Ratio v
      | None => RatioInf false
      end
  | Zneg n =>
      match magnitude64 n (Qden q) with
      | Some v => Ratio (Qred (Qopp v))
      | None => RatioInf true
      end
  end.

(** The value JavaScript holds for a quotient. *)
Definition roundRatio (r : ratio) : ratio :=
  match r with
  | Ratio q => toBinary64 q
  | _ => r
  end.

(** [x * k], [k - x] and [k + x] for an integer literal [k] other than 0. *)
Definition timesLiteral (x : ratio) (k : Z) : ratio :=
  match x with
  | RatioNaN => RatioNaN
  | RatioInf s => RatioInf (xorb s (k <? 0))
  | Ratio q => toBinary64 (q * (k # 1))
  end.

Definition literalMinus (k : Z) (x : ratio) : ratio :=
  match x with
  | RatioNaN => RatioNaN
  | RatioInf s => RatioInf (negb s)
  | Ratio q => toBinary64 ((k # 1) - q)
  end.

Definition literalPlus (k : Z) (x : ratio) : ratio :=
  match x with
  | RatioNaN => RatioNaN
  | RatioInf s => RatioInf s
  | Ratio q => toBinary64 ((k # 1) + q)
  end.

(** [floor q] *)
Definition floorQ (q : Q) : Z := Qnum q / Zpos (Qden q).

(** [Math.round(x)]: the nearest integer, the larger one of two equally
    near. *)
Definition mathRound (x : ratio) : number :=
  match x with
  | RatioNaN => NaN
  | RatioInf s => Infinity s
  | Ratio q => Fin (floorQ (q + (1 # 2)))
  end.

(** [getColorFromRatio(ratio)] under the theme [isDarkTheme]. *)
Definition getColorFromRatio (isDarkTheme : bool) (ratio : ratio) : string :=
  let h := Fin 210 in
  let s := mathRound (literalMinus 50 (timesLiteral ratio 40)) in
  let l := if isDarkTheme
           then mathRound (literalMinus 30 (timesLiteral ratio 15))
           else mathRound (literalPlus 85 (timesLiteral ratio 11)) in
  ("hsl(" ++ toString h ++ ", " ++ toString s ++ "%, " ++ toString l ++ "%)")%string.

(** The string a [backgroundColor] stands for. *)
Definition backgroundString (b : background) : string :=
  match b with
  | transparent => "transparent"
  | colorFromRatio isDarkTheme r => getColorFromRatio isDarkTheme (roundRatio r)
  end.

(** ** [GitBlameGutter]: the controller *)

Definition DEBOUNCE_DELAY_MS : Z := 150.
Definition STATUS_BAR_DURATION_MS : Z := 2000.

(** [vscode.ColorThemeKind] *)
Inductive ColorThemeKind : Type := Light | Dark | HighContrast | HighContrastLight.

(** What the code reads of a [TextDocument]. *)
Record TextDocument : Type := mkTextDocument {
  isUntitled : bool;
  scheme : string;
  fsPath : string;
  version : Z;
  lineCount : nat
}.

(** Editors and timer handles, by identity. *)
Abbreviation editor := nat.
Abbreviation timer := nat.

(** The calls the controller makes to the host, in the order it makes
    them.  [SetTimeout t e delay] is a call of [setTimeout] whose callback
    runs [doUpdate] on the editor [e] and that returned the handle [t]. *)
Inductive call : Type :=
| ClearTimeout (t : timer)
| SetTimeout (t : timer) (e : editor) (delay : Z)
| SetDecorations (e : editor) (ds : list Decoration)
| SetStatusBarMessage (text : string) (duration : Z)
| DisposeDecorationType.

(** The fields of the controller. *)
Record GitBlameGutter : Type := mkGitBlameGutter {
  enabled : bool;
  updateTimeout : option timer;
  blameCache : gmap string (list (BlameLine BlameInfo));
  isDarkTheme : bool
}.

(** [updateTheme()], for the kind of the active colour theme. *)
Definition updateTheme (kind : ColorThemeKind) (g : GitBlameGutter) : GitBlameGutter :=
  mkGitBlameGutter (enabled g) (updateTimeout g) (blameCache g)
    (match kind with Dark | HighContrast => true | _ => false end).

(** The constructor. *)
Definition construct (kind : ColorThemeKind) : GitBlameGutter :=
  updateTheme kind (mkGitBlameGutter true None ∅ false).

(** [update(editor)]; [fresh] is the handle [setTimeout] returns if it is
    called. *)
Definition update (g : GitBlameGutter) (e : editor) (fresh : timer)
    : GitBlameGutter * list call :=
  if negb (enabled g) then (g, [])
  else
    (mkGitBlameGutter (enabled g) (Some fresh) (blameCache g) (isDarkTheme g),
     match updateTimeout g with
     | Some t => [ClearTimeout t]
     | None => []
     end ++ [SetTimeout fresh e DEBOUNCE_DELAY_MS]).

(** [clearDecorations()], for the visible editors. *)
Definition clearDecorations (visible : list editor) : list call :=
  (fun e => SetDecorations e []) <$> visible.

(** [toggle()], for the active editor, if any, and the visible editors. *)
Definition toggle (g : GitBlameGutter) (active : option editor) (visible : list editor)
    (fresh : timer) : GitBlameGutter * list call :=
  let g1 := mkGitBlameGutter (negb (enabled g)) (updateTimeout g) (blameCache g)
              (isDarkTheme g) in
  let '(g2, calls) :=
    if enabled g1 then
      match active with
      | Some e => update g1 e fresh
      | None => (g1, [])
      end
    else (g1, clearDecorations visible) in
  (g2, calls ++ [SetStatusBarMessage
                   ("Git Blame Gutter: " ++ (if enabled g1 then "Enabled" else "Disabled"))
                   STATUS_BAR_DURATION_MS]).

(** [dispose()] *)
Definition dispose (g : GitBlameGutter) : list call :=
  match updateTimeout g with
  | Some t => [ClearTimeout t]
  | None => []
  end ++ [DisposeDecorationType].

(** How the promise of [getBlameInfo] ends: resolved with the table,
    rejected, or never settled, when the callback of [exec] throws before
    it calls [resolve]. *)
Inductive settlement : Type :=
| Resolved (blameLines : list (BlameLine BlameInfo))
| Rejected
| Unsettled.

(** The callback of [exec], given whether git failed and what it wrote. *)
Definition getBlameInfo (error : bool) (stdout : string) : settlement :=
  if error then Rejected
  else match parse stdout with
       | Returned blameLines => Resolved blameLines
       | Thrown => Unsettled
       end.

(** [doUpdate(editor)] up to the [await]: [None] when it returns at once,
    else the version of the document it remembers. *)
Definition doUpdateStart (doc : TextDocument) : option Z :=
  if isUntitled doc || negb (String.eqb (scheme doc) "file") then None
  else Some (version doc).

Section DoUpdate.
Variable LocalTZA : Z -> Z.

(** [applyDecorations(editor, blameLines)] as a method: one call of
    [setDecorations]. *)
Definition applyDecorationsTo (g : GitBlameGutter) (e : editor) (doc : TextDocument)
    (blameLines : list (BlameLine BlameInfo)) : call :=
  SetDecorations e (applyDecorations LocalTZA (isDarkTheme g) (lineCount doc) blameLines).

(** [doUpdate(editor)] from the [await] on: [currentVersion] is the version
    remembered, [doc] the document of the editor as it is when the promise
    settles. *)
Definition doUpdateFinish (g : GitBlameGutter) (e : editor) (currentVersion : Z)
    (doc : TextDocument) (s : settlement) : GitBlameGutter * list call :=
  match s with
  | Resolved blameLines =>
      if negb (version doc =? currentVersion) then (g, [])
      else
        let g' := mkGitBlameGutter (enabled g) (updateTimeout g)
                    (<[fsPath doc := blameLines]> (blameCache g)) (isDarkTheme g) in
        (g', [applyDecorationsTo g' e doc blameLines])
  | Rejected =>
      let g' := mkGitBlameGutter (enabled g) (updateTimeout g)
                  (delete (fsPath doc) (blameCache g)) (isDarkTheme g) in
      (g', [applyDecorationsTo g' e doc []])
  | Unsettled => (g, [])
  end.
End DoUpdate.

(** The events [activate] subscribes the controller to, a timer of
    [update] running out, and the promise awaited by [doUpdate] settling. *)
Inductive event : Type :=
| ToggleCommand (active : option editor) (visible : list editor)
| ActiveEditorChanged (e : option editor)
| DocumentSaved (active : option editor) (isActiveDocument : bool)
| DocumentChanged (active : option editor) (isActiveDocument : bool)
| ThemeChanged (kind : ColorThemeKind) (active : option editor)
| TimerFired (t : timer)
| BlameSettled (e : editor) (currentVersion : Z) (doc : TextDocument) (s : settlement).

(** The controller with the timers of the host: the pending timers, each
    with the editor its callback refreshes, and the next handle. *)
Record host : Type := mkHost {
  gutter : GitBlameGutter;
  pending : gmap timer editor;
  nextTimer : timer
}.

(** The effect of a call on the timers. *)
Definition perform (p : gmap timer editor) (c : call) : gmap timer editor :=
  match c with
  | ClearTimeout t => delete t p
  | SetTimeout t e _ => <[t := e]> p
  | _ => p
  end.

(** [update(editor)] on the host, when there is an editor. *)
Definition hostUpdate (h : host) (e : option editor) : host :=
  match e with
  | Some e =>
      let '(g, calls) := update (gutter h) e (nextTimer h) in
      mkHost g (foldl perform (pending h) calls) (S (nextTimer h))
  | None => h
  end.

Section Host.
Variable LocalTZA : Z -> Z.

(** The handlers registered by [activate], the callback of [setTimeout]
    and the rest of [doUpdate], as far as the controller and the timers
    go.  A handle is used up by each handler that may call [setTimeout]. *)
Definition handle (h : host) (ev : event) : host :=
  match ev with
  | ToggleCommand active visible =>
      let '(g, calls) := toggle (gutter h) active visible (nextTimer h) in
      mkHost g (foldl perform (pending h) calls) (S (nextTimer h))
  | ActiveEditorChanged e => hostUpdate h e
  | DocumentSaved active same | DocumentChanged active same =>
      if same then hostUpdate h active else h
  | ThemeChanged kind active =>
      hostUpdate (mkHost (updateTheme kind (gutter h)) (pending h) (nextTimer h)) active
  | TimerFired t => mkHost (gutter h) (delete t (pending h)) (nextTimer h)
  | BlameSettled e currentVersion doc s =>
      mkHost (fst (doUpdateFinish LocalTZA (gutter h) e currentVersion doc s))
        (pending h) (nextTimer h)
  end.
End Host.

(** [activate]: the controller is constructed and refreshes the active
    editor. *)
Definition activate (kind : ColorThemeKind) (active : option editor) : host :=
  hostUpdate (mkHost (construct kind) ∅ 0%nat) active.

(** The timers are as the controller believes: only the handle it holds
    can be pending, and handles yet to be returned are not in use. *)
Definition debounced (h : host) : Prop :=
  (forall t e, pending h !! t = Some e -> updateTimeout (gutter h) = Some t)
  /\ (forall t, updateTimeout (gutter h) = Some t -> (t < nextTimer h)%nat)
  /\ (forall t e, pending h !! t = Some e -> (t < nextTimer h)%nat).

(** Two controllers that differ at most in [blameCache]. *)
Definition sameButCache (g g' : GitBlameGutter) : Prop :=
  enabled g = enabled g' /\ updateTimeout g = updateTimeout g'
  /\ isDarkTheme g = isDarkTheme g'.

(** ** Vocabulary of the statements *)

(** The invariant of the parsing loop: [blameMap] and the allocated objects
    are in one-to-one correspondence through the [hash] field, the keys are
    hashes, every entry of [result] references an allocated object whose
    hash is not the zero hash, and [currentHash] is open unless it is still
    the empty string. *)
Record wf (st : state) : Prop := mkWf {
  wf_map : forall h a, blameMap st !! h = Some a ->
             exists b, heap st !! a = Some b /\ hash b = h;
  wf_heap : forall a b, heap st !! a = Some b -> blameMap st !! hash b = Some a;
  wf_keys : forall h a, blameMap st !! h = Some a -> isHash h = true;
  wf_result : forall l, l ∈ result st ->
                exists b, heap st !! info l = Some b /\ hash b <> ZERO_HASH;
  wf_current : currentHash st = EmptyString \/ is_Some (blameMap st !! currentHash st)
}.

(** A line that the loop treats as a hunk header. *)
Definition isHeader (line : string) : bool :=
  match line with
  | EmptyString => false
  | _ => isHash (default EmptyString (head (split " " line)))
  end.

(** The hash a header line opens. *)
Definition headerHash (line : string) : string :=
  default EmptyString (head (split " " line)).

(** The reading of C10: a header line whose third or fourth field does
    not parse to a number opens its hash and adds no entry. *)
Definition header_without_numbers_adds_nothing : Prop :=
  forall st line,
    isHeader line = true ->
    parseIntArg (split " " line !! 2%nat) = NaN
    \/ parseIntArg (split " " line !! 3%nat) = NaN ->
    exists st', step st line = Returned st'
                /\ currentHash st' = headerHash line
                /\ result st' = result st.

(** Number of entries a line makes the loop push; [None] for a loop that
    never ends. *)
Definition demand (line : string) : option Z :=
  if isHeader line && bool_decide (headerHash line <> ZERO_HASH)
  then iterations (parseIntArg (split " " line !! 3%nat))
  else Some 0.

Fixpoint totalDemand (lines : list string) : option Z :=
  match lines with
  | [] => Some 0
  | l :: ls =>
      match demand l, totalDemand ls with
      | Some n, Some m => Some (n + m)
      | _, _ => None
      end
  end.

(** The reading of C8: [parse] returns a table whatever the text. *)
Definition parse_always_returns : Prop :=
  forall stdout, exists table, parse stdout = Returned table.

(** The three fields a metadata line can assign. *)
Inductive field : Type := Author | AuthorTime | Summary.

#[global] Instance field_eq_decision : EqDecision field.
Proof. solve_decision. Defined.

(** The field a line assigns when it is read as a metadata line. *)
Definition kind (line : string) : option field :=
  if startsWith "author " line then Some Author
  else if startsWith "author-time " line then Some AuthorTime
  else if startsWith "summary " line then Some Summary
  else None.

(** [f] assigns the field [k]. *)
Definition assigns (k : field) (f : BlameInfo -> BlameInfo) : Prop :=
  match k with
  | Author => exists v, f = setAuthor v
  | AuthorTime => exists v, f = setTime v
  | Summary => exists v, f = setSummary v
  end.

(** The hash opened by the last header line of [lines], [cur] if there is
    none. *)
Fixpoint lastOpened (cur : string) (lines : list string) : string :=
  match lines with
  | [] => cur
  | l :: ls => lastOpened (if isHeader l then headerHash l else cur) ls
  end.

(** No line of [lines], read from the current hash [cur] on, is a metadata
    line of field [k] applied while [h] is the current hash. *)
Fixpoint notReassigned (k : field) (h cur : string) (lines : list string) : bool :=
  match lines with
  | [] => true
  | l :: ls =>
      if isHeader l then notReassigned k h (headerHash l) ls
      else negb (bool_decide (cur = h) && bool_decide (kind l = Some k))
           && notReassigned k h cur ls
  end.

(** The object [b] holds, in the field [k], the value the metadata line
    [m] of that field gives: the rest of the line after the keyword,
    trimmed, parsed as an integer for the time. *)
Definition holds (k : field) (m : string) (b : BlameInfo) : Prop :=
  match k with
  | Author => author b = trim (substringFrom 7 m)
  | AuthorTime => time b = parseInt (trim (substringFrom 12 m))
  | Summary => summary b = Some (trim (substringFrom 8 m))
  end.

(** The reading of C4: whenever a metadata line is applied to the object at
    address [a], the object at [a] holds the value of that line when the
    loop ends. *)
Definition every_metadata_line_is_final : Prop :=
  forall stdout pre m post st1 st2 a k,
    split LF stdout = pre ++ m :: post ->
    run initial pre = Returned st1 ->
    blameMap st1 !! currentHash st1 = Some a ->
    isHeader m = false ->
    kind m = Some k ->
    parseState stdout = Returned st2 ->
    exists b, heap st2 !! a = Some b /\ holds k m b.

(** [Number.isSafeInteger(x)] *)
Definition isSafeInteger (x : number) : bool :=
  match x with
  | Fin z => Z.abs z <? 2 ^ 53
  | _ => false
  end.

(** The entries with a timestamp above 0. *)
Definition observed (table : list (BlameLine BlameInfo)) : list (BlameLine BlameInfo) :=
  List.filter (fun l => gt (time (info l)) (Fin 0)) table.

(** The reading of C2: the range of ages is the one of the entries with a
    timestamp above 0. *)
Definition range_over_positive_times : Prop :=
  forall table, timeRange table = timeRange (observed table).

(** The reading of C3 for the oldest line, for a given way [range] of
    taking the minimum and maximum observed: an attributed line whose
    timestamp is the minimum, when the maximum differs, gets ratio 1. *)
Definition oldest_line_gets_ratio_one
    (range : list (BlameLine BlameInfo) -> number * number) : Prop :=
  forall tz dark n table i b,
    (i < n)%nat ->
    lineToBlame table !! Fin (Z.of_nat i) = Some b ->
    time b = fst (range table) ->
    fst (range table) <> snd (range table) ->
    exists d, applyDecorations tz dark n table !! i = Some d
              /\ backgroundColor d = colorFromRatio dark (Ratio (1 # 1)).

(** The commit attributed to the 1-based line [lineNumber]: the one of the
    last entry of the table with that line number. *)
Definition attribution (table : list (BlameLine BlameInfo)) (lineNumber : Z) : option BlameInfo :=
  info <$> last (List.filter (fun l => bool_decide (line l = Fin lineNumber)) table).

(** The reading of C7: the decoration of index [i] is the placeholder
    exactly when line [i + 1] has no attribution or its commit has
    timestamp 0. *)
Definition placeholder_iff_unattributed_or_time_zero : Prop :=
  forall tz dark n table i,
    (i < n)%nat -> Z.of_nat n < 2 ^ 53 ->
    applyDecorations tz dark n table !! i = Some (placeholder i)
    <-> (attribution table (Z.of_nat i + 1) = None
         \/ exists b, attribution table (Z.of_nat i + 1) = Some b /\ time b = Fin 0).

(** A host whose local time is UTC. *)
Definition UTC : Z -> Z := fun _ => 0.

(** The author field as C6 words it: cut to 6 characters when longer,
    filled with spaces to 6 characters otherwise. *)
Definition fitToSix (name : string) : string :=
  if (6 <? String.length name)%nat then substringTo 6 name
  else padEnd 6 " " name.

(** The reading of C6: the label of a commit dated above 0 is the date, a
    space and the author name fitted to 6 characters, 17 characters in
    all. *)
Definition label_is_date_and_fitted_author : Prop :=
  forall tz b t,
    time b = Fin t -> 0 < t ->
    label tz b = (dateStr tz (time b) ++ " " ++ fitToSix (author b))%string
    /\ String.length (label tz b) = 17%nat.

(** The two decimal digits of a number below 100. *)
Definition twoDigits (n : Z) : string :=
  String (digitChar (n / 10)) (String (digitChar (n mod 10)) EmptyString).

(** Month and day of the month are in range on a day of the era. *)
Definition monthAndDayInRange (doe : Z) : bool :=
  let '(_, m, d) := civilOfEra doe in
  (1 <=? m) && (m <=? 12) && (1 <=? d) && (d <=? 31).

(** The decimal form of a number below 100, filled to two characters, is
    its two digits. *)
Definition paddedIsTwoDigits (n : Z) : bool :=
  String.eqb (padStart 2 "0" (decimal n)) (twoDigits n).

Definition hasFourDigits (n : Z) : bool :=
  (String.length (decimal n) =? 4)%nat.

(** [p] holds of the [n] integers from [lo] on. *)
Fixpoint forallRange (p : Z -> bool) (lo : Z) (n : nat) : bool :=
  match n with
  | O => true
  | S k => p lo && forallRange p (lo + 1) k
  end.

(** The line number and the hash of an entry of the table. *)
Definition lineAndHash (l : BlameLine BlameInfo) : number * string :=
  (line l, hash (info l)).

(** The line numbers a header line declares, each with the hash of the
    header: none for the zero hash. *)
Definition hunkEntries (line : string) : list (number * string) :=
  if isHeader line && bool_decide (headerHash line <> ZERO_HASH) then
    match iterations (parseIntArg (split " " line !! 3%nat)) with
    | Some n =>
        (fun j => (add (parseIntArg (split " " line !! 2%nat)) (Fin j), headerHash line))
          <$> seqZ 0 n
    | None => []
    end
  else [].

(** Line number and hash of the entries of [r], read through the objects
    of [h]. *)
Definition keys (h : list BlameInfo) (r : list (BlameLine addr)) : list (number * string) :=
  omap (fun l => (fun b => (line l, hash b)) <$> h !! info l) r.

(** The hashes of the header lines of [lines]. *)
Definition headerHashes (lines : list string) : gset string :=
  list_to_set (headerHash <$> List.filter isHeader lines).

(** Sample streams. *)
Definition hashA : string := "aaaaaaaaaaaaaaaaaaaaaaaaaaaaaaaaaaaaaaaa".
Definition hashB : string := "bbbbbbbbbbbbbbbbbbbbbbbbbbbbbbbbbbbbbbbb".
Definition hashC : string := "cccccccccccccccccccccccccccccccccccccccc".

(** The text whose lines are [ls], each ended by a line feed. *)
Fixpoint unlines (ls : list string) : string :=
  match ls with
  | [] => EmptyString
  | l :: ls' => (l ++ String LF (unlines ls'))%string
  end.

(** Two hunks of one commit around a hunk of uncommitted lines. *)
Definition stream_with_uncommitted : string :=
  unlines [ (hashA ++ " 1 1 2")%string; "author Bob"; "author-time 1000";
            "summary first"; "filename f.txt";
            (ZERO_HASH ++ " 3 3 1")%string; "author Not Committed Yet";
            "author-time 2000";
            (hashA ++ " 3 4 1")%string ].

(** A commit whose hunks surround a hunk of another commit, with a
    second author line after it is opened again. *)
Definition stream_author_twice : string :=
  unlines [ (hashA ++ " 1 1 1")%string; "author Bob"; "author-time 1000";
            (hashB ++ " 2 2 1")%string; "author Carol"; "author-time 2000";
            (hashA ++ " 3 3 1")%string; "author Alice" ].

(** A commit whose metadata never arrives, before two dated commits. *)
Definition stream_with_unset_time : string :=
  unlines [ (hashC ++ " 1 1 1")%string;
            (hashA ++ " 2 2 1")%string; "author Bob"; "author-time 100";
            (hashB ++ " 3 3 1")%string; "author Carol"; "author-time 200" ].

Definition table_with_unset_time : list (BlameLine BlameInfo) :=
  [ mkBlameLine (Fin 1) (mkBlameInfo hashC EmptyString (Fin 0) None);
    mkBlameLine (Fin 2) (mkBlameInfo hashA "Bob" (Fin 100) None);
    mkBlameLine (Fin 3) (mkBlameInfo hashB "Carol" (Fin 200) None) ].

(** A commit dated before the epoch. *)
Definition stream_before_epoch : string :=
  unlines [ (hashA ++ " 1 1 1")%string; "author Bob"; "author-time -5" ].

Definition table_before_epoch : list (BlameLine BlameInfo) :=
  [ mkBlameLine (Fin 1) (mkBlameInfo hashA "Bob" (Fin (-5)) None) ].

(** A commit whose author line never arrives. *)
Definition stream_without_author : string :=
  unlines [ (hashA ++ " 1 1 1")%string; "author-time 1700000000"; "summary fix" ].

Definition table_without_author : list (BlameLine BlameInfo) :=
  [ mkBlameLine (Fin 1) (mkBlameInfo hashA EmptyString (Fin 1700000000) (Some "fix"%string)) ].

(** The state the loop is in after [lines], [initial] if it throws. *)
Definition stateAfter (lines : list string) : state :=
  match run initial lines with
  | Returned st => st
  | Thrown => initial
  end.

(** The state a stream leaves, [initial] if it throws. *)
Definition finalState (stdout : string) : state :=
  stateAfter (split LF stdout).

(** The table a stream yields, empty if it throws. *)
Definition finalTable (stdout : string) : list (BlameLine BlameInfo) :=
  match parse stdout with
  | Returned t => t
  | Thrown => []
  end.

(** ** Checks on concrete inputs *)

Example parseInt_12 : JS.parseInt "12" = JS.Fin 12.
Proof. reflexivity. Qed.
Example parseInt_cr : JS.parseInt (String "2" (String (ascii_of_nat 13) EmptyString)) = JS.Fin 2.
Proof. reflexivity. Qed.
Example parseInt_hex : JS.parseInt " -0x1fz" = JS.Fin (-31).
Proof. reflexivity. Qed.
Example parseInt_undefined : JS.parseIntArg None = JS.NaN.
Proof. reflexivity. Qed.
Example parseInt_big : JS.parseInt "9007199254740993" = JS.Fin 9007199254740992.
Proof. vm_compute. reflexivity. Qed.
Example split_sp : JS.split " " "a b  c" = ["a"; "b"; EmptyString; "c"]%string.
Proof. reflexivity. Qed.
Example trim_ex : JS.trim "  a b  " = "a b"%string.
Proof. reflexivity. Qed.
Example parse_with_uncommitted :
  parse stream_with_uncommitted =
  Returned [ mkBlameLine (Fin 1) (mkBlameInfo hashA "Bob" (Fin 1000) (Some "first"%string));
             mkBlameLine (Fin 2) (mkBlameInfo hashA "Bob" (Fin 1000) (Some "first"%string));
             mkBlameLine (Fin 4) (mkBlameInfo hashA "Bob" (Fin 1000) (Some "first"%string)) ].
Proof. vm_compute. reflexivity. Qed.
Example toString_year : JS.toString (JS.getFullYear (fun _ => 0) (JS.newDate (JS.mul (JS.Fin 1700000000) (JS.Fin 1000)))) = "2023"%string.
Proof. reflexivity. Qed.
Example civil_ex : JS.civilFromDays (JS.Day 1700000000000) = (2023, 11, 14).
Proof. reflexivity. Qed.
Example civil_epoch : JS.civilFromDays 0 = (1970, 1, 1).
Proof. reflexivity. Qed.
Example civil_leap : JS.civilFromDays 19782 = (2024, 2, 29).
Proof. reflexivity. Qed.
Example civil_before : JS.civilFromDays (-1) = (1969, 12, 31).
Proof. reflexivity. Qed.

(** ** The parsing loop *)

Lemma bind_Returned {A B} (x : outcome A) (f : A -> outcome B) (b : B) :
  bind x f = Returned b <-> exists a, x = Returned a /\ f a = Returned b.
Proof.
  destruct x as [a|]; simpl; split.
  - intros H; exists a; auto.
  - intros (a' & [= <-] & H); exact H.
  - discriminate.
  - intros (a' & H & _); discriminate.
Qed.

Lemma run_app st l1 l2 :
  run st (l1 ++ l2) = bind (run st l1) (fun st' => run st' l2).
Proof.
  revert st; induction l1 as [|l ls IH]; intros st; simpl; [reflexivity|].
  destruct (step st l) as [st'|]; simpl; [apply IH | reflexivity].
Qed.

Lemma step_empty st : step st EmptyString = Returned st.
Proof. reflexivity. Qed.

Lemma step_header st line :
  isHeader line = true ->
  step st line = header st (headerHash line) (split " " line).
Proof.
  unfold isHeader, headerHash, step. destruct line; [discriminate|].
  intros ->. reflexivity.
Qed.

Lemma step_other st line :
  isHeader line = false ->
  step st line =
    match blameMap st !! currentHash st, metadata line with
    | Some a, Some f => Returned (mutate a f st)
    | _, _ => Returned st
    end.
Proof.
  unfold isHeader, step. destruct line.
  - intros _. destruct (blameMap st !! currentHash st); reflexivity.
  - intros ->. destruct (blameMap st !! currentHash st); [|reflexivity].
    destruct (metadata _); reflexivity.
Qed.

Lemma metadata_hash line f b : metadata line = Some f -> hash (f b) = hash b.
Proof.
  unfold metadata. repeat case_match; intros [= <-]; reflexivity.
Qed.

Lemma wf_initial : wf initial.
Proof.
  split; simpl.
  - intros h a H. rewrite lookup_empty in H. discriminate.
  - intros a b H. rewrite lookup_nil in H. discriminate.
  - intros h a H. rewrite lookup_empty in H. discriminate.
  - intros l H. apply not_elem_of_nil in H. destruct H.
  - left; reflexivity.
Qed.

Lemma wf_mutate st a f :
  (forall b, hash (f b) = hash b) -> wf st -> wf (mutate a f st).
Proof.
  intros Hf [Hm Hh Hk Hr Hc]. split; simpl.
  - intros h a' Ha'. destruct (Hm _ _ Ha') as (b & Hb & Hhash).
    destruct (decide (a = a')) as [->|Hne].
    + exists (f b). rewrite list_lookup_alter_eq, Hb. simpl. rewrite Hf. auto.
    + exists b. rewrite list_lookup_alter_ne by done. auto.
  - intros a' b. destruct (decide (a = a')) as [->|Hne].
    + rewrite list_lookup_alter_eq. destruct (heap st !! a') as [b0|] eqn:E; [|discriminate].
      intros [= <-]. rewrite Hf. auto.
    + rewrite list_lookup_alter_ne by done. auto.
  - exact Hk.
  - intros l Hl. destruct (Hr _ Hl) as (b & Hb & Hz).
    destruct (decide (a = info l)) as [->|Hne].
    + exists (f b). rewrite list_lookup_alter_eq, Hb. simpl. rewrite Hf. auto.
    + exists b. rewrite list_lookup_alter_ne by done. auto.
  - exact Hc.
Qed.

(** What a header line does to the variables, when it does not throw. *)
Lemma header_Returned st h parts st' :
  header st h parts = Returned st' ->
  exists a new,
    currentHash st' = h /\
    blameMap st' !! h = Some a /\
    result st' = result st ++ new /\
    Forall (fun l => info l = a) new /\
    (h = ZERO_HASH -> new = []) /\
    match blameMap st !! h with
    | Some a0 => a = a0 /\ heap st' = heap st /\ blameMap st' = blameMap st
    | None => a = length (heap st) /\
              heap st' = heap st ++ [mkBlameInfo h EmptyString (Fin 0) None] /\
              blameMap st' = <[h := a]> (blameMap st)
    end.
Proof.
  unfold header.
  set (lineNum := parseIntArg _). set (count := parseIntArg _).
  assert (Hpush : forall a r, (if bool_decide (h <> ZERO_HASH)
              then pushLines lineNum count a (result st)
              else Returned (result st)) = Returned r ->
            exists new, r = result st ++ new /\ Forall (fun l => info l = a) new
                        /\ (h = ZERO_HASH -> new = [])).
  { intros a r. case_bool_decide as Hz.
    - unfold pushLines. destruct (iterations count) as [n|]; [|discriminate].
      case_match; [|discriminate]. intros [= <-].
      eexists; split; [reflexivity|]. split; [|intros ?; done].
      apply Forall_fmap, Forall_forall. intros; reflexivity.
    - intros [= <-]. exists []. rewrite app_nil_r. split; [done|]. split; [constructor|done]. }
  destruct (blameMap st !! h) as [a0|] eqn:E; intros H;
    apply bind_Returned in H as (r & Hr & [= <-]);
    apply Hpush in Hr as (new & -> & Hall & Hzero); simpl.
  - exists a0, new. rewrite E. auto 10.
  - exists (length (heap st)), new. rewrite lookup_insert_eq. auto 10.
Qed.

Lemma wf_header st h parts st' :
  isHash h = true -> wf st -> header st h parts = Returned st' -> wf st'.
Proof.
  intros Hh [Hm Hhp Hk Hr Hc] H.
  apply header_Returned in H as (a & new & Hcur & Hlook & Hres & Hall & Hzero & Hcase).
  assert (Hnz : new <> [] -> h <> ZERO_HASH) by (intros Hn Hz; auto).
  destruct (blameMap st !! h) as [a0|] eqn:E.
  - destruct Hcase as (-> & Hheap & Hmap).
    split; rewrite ?Hheap, ?Hmap, ?Hres, ?Hcur; [done|done|done| |].
    + intros l [Hl|Hl]%elem_of_app; [auto|].
      destruct (Hm _ _ E) as (b & Hb & Hhash). exists b.
      rewrite Forall_forall in Hall. rewrite (Hall _ Hl). split; [done|].
      rewrite Hhash. apply Hnz. intros ->. by apply not_elem_of_nil in Hl.
    + right. rewrite E. eauto.
  - destruct Hcase as (-> & Hheap & Hmap). split; rewrite ?Hheap, ?Hmap, ?Hres, ?Hcur.
    + intros h' a'. destruct (decide (h = h')) as [<-|Hne].
      * rewrite lookup_insert_eq. intros [= <-]. eexists.
        split; [rewrite lookup_app_r by lia; by rewrite Nat.sub_diag | reflexivity].
      * rewrite lookup_insert_ne by done. intros Ha'.
        destruct (Hm _ _ Ha') as (b & Hb & Hhash). exists b. split; [|done].
        rewrite lookup_app_l; [done|]. by eapply lookup_lt_Some.
    + intros a' b Hb. destruct (decide (a' < length (heap st))%nat) as [Hlt|Hge].
      * rewrite lookup_app_l in Hb by done.
        destruct (decide (h = hash b)) as [->|Hne].
        -- apply Hhp in Hb. congruence.
        -- rewrite lookup_insert_ne by done. auto.
      * rewrite lookup_app_r in Hb by lia.
        destruct (a' - length (heap st))%nat as [|k] eqn:Ek; simpl in Hb; [|by destruct k].
        injection Hb as <-. simpl. rewrite lookup_insert_eq. f_equal. lia.
    + intros h' a'. destruct (decide (h = h')) as [<-|Hne].
      * auto.
      * rewrite lookup_insert_ne by done. apply Hk.
    + intros l [Hl|Hl]%elem_of_app.
      * destruct (Hr _ Hl) as (b & Hb & Hz). exists b. split; [|done].
        rewrite lookup_app_l; [done|]. by eapply lookup_lt_Some.
      * rewrite Forall_forall in Hall. rewrite (Hall _ Hl).
        eexists. split; [rewrite lookup_app_r by lia; by rewrite Nat.sub_diag|].
        simpl. apply Hnz. intros ->. by apply not_elem_of_nil in Hl.
    + right. rewrite lookup_insert_eq. eauto.
Qed.

Lemma isHeader_hash line : isHeader line = true -> isHash (headerHash line) = true.
Proof. unfold isHeader, headerHash. destruct line; [discriminate | auto]. Qed.

Lemma wf_step st line st' : wf st -> step st line = Returned st' -> wf st'.
Proof.
  intros Hwf. destruct (isHeader line) eqn:E.
  - rewrite step_header by done. apply wf_header; [by apply isHeader_hash | done].
  - rewrite step_other by done.
    destruct (blameMap st !! currentHash st) as [a|]; [|by intros [= <-]].
    destruct (metadata line) as [f|] eqn:Ef; intros [= <-]; [|done].
    apply wf_mutate; [|done]. intros b. by eapply metadata_hash.
Qed.

Lemma wf_run lines : forall st st', wf st -> run st lines = Returned st' -> wf st'.
Proof.
  induction lines as [|l ls IH]; simpl; intros st st' Hwf H.
  - by injection H as <-.
  - apply bind_Returned in H as (st1 & H1 & H2). eauto using wf_step.
Qed.

Lemma wf_parseState stdout st : parseState stdout = Returned st -> wf st.
Proof. apply wf_run, wf_initial. Qed.

(** ** Uncommitted lines and sharing of commit objects *)

Lemma elem_of_resolved st l :
  l ∈ resolved st ->
  exists e b, e ∈ result st /\ heap st !! info e = Some b /\ l = mkBlameLine (line e) b.
Proof.
  unfold resolved. rewrite list_elem_of_omap. intros (e & He & Hd).
  unfold deref in Hd. destruct (heap st !! info e) as [b|] eqn:E; [|discriminate].
  injection Hd as <-. eauto.
Qed.

Lemma parse_Returned stdout table :
  parse stdout = Returned table ->
  exists st, parseState stdout = Returned st /\ table = resolved st.
Proof.
  unfold parse, parseLines. intros (st & H & [= <-])%bind_Returned. eauto.
Qed.

Lemma step_zero_header st line :
  isHeader line = true -> headerHash line = ZERO_HASH ->
  exists st', step st line = Returned st' /\ result st' = result st.
Proof.
  intros Hh Hz. rewrite step_header by done. rewrite Hz.
  unfold header. rewrite bool_decide_eq_false_2 by (intros H; by apply H).
  destruct (blameMap st !! ZERO_HASH); simpl; eauto.
Qed.

(** C1: no entry of the table returned by [parse] carries the all-zero
    hash, and a header line whose hash is the all-zero hash adds no entry
    to [result] (and cannot throw). *)
Theorem zero_hash_never_attributed (stdout : string) (table : list (BlameLine BlameInfo)) :
  parse stdout = Returned table ->
  Forall (fun l => hash (info l) <> ZERO_HASH) table
  /\ forall st line, isHeader line = true -> headerHash line = ZERO_HASH ->
       exists st', step st line = Returned st' /\ result st' = result st.
Proof.
  intros (st & Hst & ->)%parse_Returned. split; [|apply step_zero_header].
  apply Forall_forall. intros l (e & b & He & Hb & ->)%elem_of_resolved. simpl.
  destruct (wf_result _ (wf_parseState _ _ Hst) _ He) as (b' & Hb' & Hz). congruence.
Qed.

Lemma zero_hash_never_attributed_witness :
  Forall (fun l => hash (info l) <> ZERO_HASH) (finalTable stream_with_uncommitted)
  /\ forall st line, isHeader line = true -> headerHash line = ZERO_HASH ->
       exists st', step st line = Returned st' /\ result st' = result st.
Proof.
  apply (zero_hash_never_attributed stream_with_uncommitted).
  vm_compute. reflexivity.
Defined.

(** C5: in the state the loop ends in, every entry of [result] references
    an allocated object, two entries whose objects carry the same hash
    reference the same object (the same address, not a copy), that object
    is the one [blameMap] holds for the hash, and the entries one header
    line pushes all reference one object. *)
Theorem one_object_per_hash (stdout : string) (st : state) :
  parseState stdout = Returned st ->
  (forall l, l ∈ result st -> is_Some (heap st !! info l))
  /\ (forall l1 l2 b1 b2, l1 ∈ result st -> l2 ∈ result st ->
        heap st !! info l1 = Some b1 -> heap st !! info l2 = Some b2 ->
        hash b1 = hash b2 -> info l1 = info l2)
  /\ (forall a b, heap st !! a = Some b -> blameMap st !! hash b = Some a)
  /\ (forall st0 line st1, isHeader line = true -> step st0 line = Returned st1 ->
        exists a new, result st1 = result st0 ++ new
                      /\ blameMap st1 !! headerHash line = Some a
                      /\ Forall (fun l => info l = a) new).
Proof.
  intros Hst. pose proof (wf_parseState _ _ Hst) as [Hm Hh Hk Hr Hc].
  repeat split.
  - intros l Hl. destruct (Hr _ Hl) as (b & -> & _). eauto.
  - intros l1 l2 b1 b2 _ _ H1 H2 Heq. apply Hh in H1, H2. congruence.
  - exact Hh.
  - intros st0 line st1 Hhd Hstep. rewrite step_header in Hstep by done.
    apply header_Returned in Hstep as (a & new & _ & Hl & Hres & Hall & _).
    exists a, new. auto.
Qed.

Lemma one_object_per_hash_witness :
  let st := finalState stream_with_uncommitted in
  (forall l, l ∈ result st -> is_Some (heap st !! info l))
  /\ (forall l1 l2 b1 b2, l1 ∈ result st -> l2 ∈ result st ->
        heap st !! info l1 = Some b1 -> heap st !! info l2 = Some b2 ->
        hash b1 = hash b2 -> info l1 = info l2)
  /\ (forall a b, heap st !! a = Some b -> blameMap st !! hash b = Some a)
  /\ (forall st0 line st1, isHeader line = true -> step st0 line = Returned st1 ->
        exists a new, result st1 = result st0 ++ new
                      /\ blameMap st1 !! headerHash line = Some a
                      /\ Forall (fun l => info l = a) new).
Proof.
  apply (one_object_per_hash stream_with_uncommitted).
  vm_compute. reflexivity.
Defined.

(** ** Header lines without a usable count *)

Lemma pushLines_none lineNum count a r :
  iterations count = Some 0 -> pushLines lineNum count a r = Returned r.
Proof.
  unfold pushLines. intros ->. simpl. by rewrite app_nil_r.
Qed.

Lemma header_no_lines st h parts :
  iterations (parseIntArg (parts !! 3%nat)) = Some 0 \/ h = ZERO_HASH ->
  exists st', header st h parts = Returned st'
    /\ currentHash st' = h
    /\ result st' = result st
    /\ match blameMap st !! h with
       | Some a => heap st' = heap st /\ blameMap st' = blameMap st
       | None => heap st' = heap st ++ [mkBlameInfo h EmptyString (Fin 0) None]
                 /\ blameMap st' = <[h := length (heap st)]> (blameMap st)
       end.
Proof.
  intros Hno. unfold header.
  assert (Hpush : forall a, (if bool_decide (h <> ZERO_HASH)
              then pushLines (parseIntArg (parts !! 2%nat)) (parseIntArg (parts !! 3%nat))
                     a (result st)
              else Returned (result st)) = Returned (result st)).
  { intros a. case_bool_decide as Hz; [|reflexivity].
    destruct Hno as [Hno|Hno]; [by apply pushLines_none | done]. }
  destruct (blameMap st !! h) as [a|]; rewrite Hpush; simpl; eauto 10.
Qed.

(** C10, amended: a header line whose fourth field is missing or does not
    parse to a number makes its hash current, allocates the commit object
    if the hash is new, leaves [result] as it is and does not throw. *)
Theorem header_without_count_adds_nothing (st : state) (line : string) :
  isHeader line = true ->
  parseIntArg (split " " line !! 3%nat) = NaN ->
  exists st', step st line = Returned st'
    /\ currentHash st' = headerHash line
    /\ result st' = result st
    /\ match blameMap st !! headerHash line with
       | Some a => heap st' = heap st /\ blameMap st' = blameMap st
       | None => heap st' = heap st ++ [mkBlameInfo (headerHash line) EmptyString (Fin 0) None]
                 /\ blameMap st' = <[headerHash line := length (heap st)]> (blameMap st)
       end.
Proof.
  intros Hh Hnan. rewrite step_header by done.
  apply header_no_lines. left. by rewrite Hnan.
Qed.

Lemma header_without_count_adds_nothing_witness :
  exists st', step initial (hashA ++ " 1 1 x")%string = Returned st'
    /\ currentHash st' = hashA
    /\ result st' = []
    /\ heap st' = [mkBlameInfo hashA EmptyString (Fin 0) None]
    /\ blameMap st' = <[hashA := 0%nat]> ∅.
Proof.
  apply (header_without_count_adds_nothing initial (hashA ++ " 1 1 x")%string);
    vm_compute; reflexivity.
Defined.

(** C10 as written fails: with a third field that is not a number and a
    count of 2, two entries are pushed, each with line [NaN]. *)
Lemma header_without_line_number_still_pushes :
  parse (hashA ++ " 1 x 2")%string =
    Returned [ mkBlameLine NaN (mkBlameInfo hashA EmptyString (Fin 0) None);
               mkBlameLine NaN (mkBlameInfo hashA EmptyString (Fin 0) None) ]
  /\ ~ header_without_numbers_adds_nothing.
Proof.
  split; [vm_compute; reflexivity|].
  intros H. destruct (H initial (hashA ++ " 1 x 2")%string) as (st' & Hstep & _ & Hres).
  - vm_compute; reflexivity.
  - left. vm_compute; reflexivity.
  - vm_compute in Hstep. injection Hstep as <-. discriminate Hres.
Qed.

(** ** Totality up to the array limit, and skipped lines *)

Lemma iterations_nonneg count n : iterations count = Some n -> 0 <= n.
Proof. destruct count as [|[]|c]; simpl; intros [= <-]; lia. Qed.

Lemma demand_nonneg line n : demand line = Some n -> 0 <= n.
Proof.
  unfold demand. case_match; [apply iterations_nonneg | intros [= <-]; lia].
Qed.

Lemma pushLines_length lineNum count a r n :
  iterations count = Some n ->
  Z.of_nat (length r) + n <= MAX_ARRAY_LENGTH ->
  exists r', pushLines lineNum count a r = Returned r'
             /\ Z.of_nat (length r') = Z.of_nat (length r) + n.
Proof.
  intros Hn Hle. unfold pushLines. rewrite Hn.
  replace (Z.of_nat (length r) + n <=? MAX_ARRAY_LENGTH) with true
    by (symmetry; apply Z.leb_le; exact Hle).
  rewrite orb_true_r. eexists. split; [reflexivity|].
  rewrite length_app, length_fmap, length_seqZ.
  apply iterations_nonneg in Hn. lia.
Qed.

Lemma step_demand st line n :
  demand line = Some n ->
  Z.of_nat (length (result st)) + n <= MAX_ARRAY_LENGTH ->
  exists st', step st line = Returned st'
              /\ Z.of_nat (length (result st')) = Z.of_nat (length (result st)) + n.
Proof.
  unfold demand. intros Hd Hle. destruct (isHeader line) eqn:Hh; simpl in Hd.
  - rewrite step_header by done. case_bool_decide as Hz.
    + unfold header.
      destruct (pushLines_length (parseIntArg (split " " line !! 2%nat))
                  (parseIntArg (split " " line !! 3%nat))
                  (match blameMap st !! headerHash line with
                   | Some a => a | None => length (heap st) end)
                  (result st) n Hd Hle) as (r' & Hr' & Hlen).
      rewrite bool_decide_eq_true_2 by done.
      destruct (blameMap st !! headerHash line); rewrite Hr'; simpl; eauto.
    + injection Hd as <-.
      destruct (header_no_lines st (headerHash line) (split " " line))
        as (st' & -> & _ & Hres & _).
      * right. destruct (decide (headerHash line = ZERO_HASH)); [done|]. by destruct Hz.
      * exists st'. rewrite Hres. split; [done | lia].
  - injection Hd as <-. rewrite step_other by done.
    destruct (blameMap st !! currentHash st); [destruct (metadata line)|];
      eexists; (split; [reflexivity | simpl; lia]).
Qed.

Lemma run_demand lines : forall st n,
  totalDemand lines = Some n ->
  Z.of_nat (length (result st)) + n <= MAX_ARRAY_LENGTH ->
  exists st', run st lines = Returned st'
              /\ Z.of_nat (length (result st')) = Z.of_nat (length (result st)) + n.
Proof.
  induction lines as [|l ls IH]; simpl; intros st n Hd Hle.
  - injection Hd as <-. exists st. split; [done | lia].
  - destruct (demand l) as [k|] eqn:Ek; [|discriminate].
    destruct (totalDemand ls) as [m|] eqn:Em; [|discriminate].
    injection Hd as <-.
    pose proof (demand_nonneg _ _ Ek). 
    assert (0 <= m).
    { clear -Em. revert m Em. induction ls as [|x xs IHx]; simpl; intros m.
      - intros [= <-]; lia.
      - destruct (demand x) as [k|] eqn:Ek; [|discriminate].
        destruct (totalDemand xs) as [m'|]; [|discriminate].
        intros [= <-]. apply demand_nonneg in Ek. specialize (IHx _ eq_refl). lia. }
    destruct (step_demand st l k Ek) as (st1 & Hs & Hl1); [lia|].
    destruct (IH st1 m eq_refl) as (st' & Hr & Hl'); [lia|].
    exists st'. rewrite Hs. simpl. split; [done | lia].
Qed.

Lemma length_resolved st : wf st -> length (resolved st) = length (result st).
Proof.
  intros Hwf. unfold resolved.
  assert (H : forall l, l ∈ result st -> is_Some (deref (heap st) l)).
  { intros l Hl. destruct (wf_result _ Hwf _ Hl) as (b & Hb & _).
    unfold deref. rewrite Hb. simpl. eauto. }
  induction (result st) as [|l ls IH]; [reflexivity|].
  simpl. destruct (H l) as [x ->]; [left|]. simpl. f_equal. apply IH.
  intros l' Hl'. apply H. by right.
Qed.

(** A line that is neither a header nor a metadata line for an open hash. *)
Lemma step_skipped st line :
  isHeader line = false ->
  metadata line = None \/ blameMap st !! currentHash st = None ->
  step st line = Returned st.
Proof.
  intros Hh Hs. rewrite step_other by done.
  destruct Hs as [-> | ->]; [by destruct (blameMap st !! currentHash st) | done].
Qed.

(** C8, amended: when the header lines of the text ask for at most
    [2^32 - 1] entries in all, [parse] returns a table, of that many
    entries; and whatever the text, a line that is neither a header nor an
    author, author-time or summary line for an open hash leaves every
    variable of the loop as it is, so the text parses as it does without
    that line. *)
Theorem parse_returns_within_array_limit (stdout : string) (n : Z) :
  totalDemand (split LF stdout) = Some n ->
  n <= MAX_ARRAY_LENGTH ->
  (exists table, parse stdout = Returned table /\ Z.of_nat (length table) = n)
  /\ (forall text pre junk post st1,
        split LF text = pre ++ junk :: post ->
        run initial pre = Returned st1 ->
        isHeader junk = false ->
        metadata junk = None \/ blameMap st1 !! currentHash st1 = None ->
        step st1 junk = Returned st1 /\ parse text = parseLines (pre ++ post)).
Proof.
  intros Hd Hle. split.
  - destruct (run_demand (split LF stdout) initial n Hd) as (st & Hrun & Hlen); [simpl; lia|].
    exists (resolved st). unfold parse, parseLines. rewrite Hrun. split; [done|].
    rewrite length_resolved by (eapply wf_run; [apply wf_initial | done]).
    simpl in Hlen. lia.
  - intros text pre junk post st1 Hsplit Hpre Hh Hs.
    pose proof (step_skipped st1 junk Hh Hs) as Hstep. split; [done|].
    unfold parse, parseLines. rewrite Hsplit, !run_app, Hpre. simpl.
    by rewrite Hstep.
Qed.

Lemma parse_returns_within_array_limit_witness :
  (exists table, parse stream_with_uncommitted = Returned table
                 /\ Z.of_nat (length table) = 3)
  /\ (forall text pre junk post st1,
        split LF text = pre ++ junk :: post ->
        run initial pre = Returned st1 ->
        isHeader junk = false ->
        metadata junk = None \/ blameMap st1 !! currentHash st1 = None ->
        step st1 junk = Returned st1 /\ parse text = parseLines (pre ++ post)).
Proof.
  apply (parse_returns_within_array_limit stream_with_uncommitted 3);
    vm_compute; [reflexivity | discriminate].
Defined.

(** C8 as written fails: a header line that asks for [2^32] entries makes
    the loop throw on the push that finds the array full, and a count that
    overflows to [Infinity] never lets the loop end. *)
Lemma parse_throws_past_array_limit :
  parse (hashA ++ " 1 1 4294967296")%string = Thrown
  /\ ~ parse_always_returns.
Proof.
  assert (H : parse (hashA ++ " 1 1 4294967296")%string = Thrown)
    by (vm_compute; reflexivity).
  split; [exact H|]. intros Hall.
  destruct (Hall (hashA ++ " 1 1 4294967296")%string) as (table & Ht).
  rewrite H in Ht. discriminate.
Qed.

(** ** Metadata lines *)

Lemma metadata_kind line f :
  metadata line = Some f -> exists k, kind line = Some k /\ assigns k f.
Proof.
  unfold metadata, kind.
  destruct (startsWith "author " line);
    [intros [= <-]; exists Author; split; [done | simpl; eauto]|].
  destruct (startsWith "author-time " line);
    [intros [= <-]; exists AuthorTime; split; [done | simpl; eauto]|].
  destruct (startsWith "summary " line);
    [intros [= <-]; exists Summary; split; [done | simpl; eauto]|].
  discriminate.
Qed.

(** An assignment of another field keeps the value of an earlier one. *)
Lemma assigns_other k k' f g b :
  assigns k f -> assigns k' g -> k <> k' -> f b = b -> f (g b) = g b.
Proof.
  destruct b as [h a t s].
  destruct k, k'; simpl; intros [v ->] [w ->] Hne; try done;
    unfold setAuthor, setTime, setSummary; simpl; intros [= ?]; congruence.
Qed.

Lemma currentHash_run lines : forall st st',
  run st lines = Returned st' -> currentHash st' = lastOpened (currentHash st) lines.
Proof.
  induction lines as [|l ls IH]; simpl; intros st st' H.
  - by injection H as <-.
  - apply bind_Returned in H as (st1 & Hs & Hr). rewrite (IH _ _ Hr). f_equal.
    destruct (isHeader l) eqn:Hh.
    + rewrite step_header in Hs by done.
      by apply header_Returned in Hs as (a & new & -> & _).
    + rewrite step_other in Hs by done.
      destruct (blameMap st !! currentHash st); [destruct (metadata l)|];
        by injection Hs as <-.
Qed.

(** The value a metadata line gave to a field stays until a later metadata
    line of the same field is applied to the same hash. *)
Lemma run_keeps_field k f lines : forall st st' a b,
  assigns k f ->
  wf st ->
  heap st !! a = Some b ->
  f b = b ->
  notReassigned k (hash b) (currentHash st) lines = true ->
  run st lines = Returned st' ->
  exists b', heap st' !! a = Some b' /\ hash b' = hash b /\ f b' = b'.
Proof.
  induction lines as [|l ls IH]; simpl; intros st st' a b Hf Hwf Ha Hfb Hnot Hrun.
  - injection Hrun as <-. eauto.
  - apply bind_Returned in Hrun as (st1 & Hs & Hr).
    pose proof (wf_step _ _ _ Hwf Hs) as Hwf1.
    destruct (isHeader l) eqn:Hh.
    + rewrite step_header in Hs by done.
      apply header_Returned in Hs as (a' & new & Hcur & _ & _ & _ & _ & Hcase).
      assert (Ha1 : heap st1 !! a = Some b).
      { destruct (blameMap st !! headerHash l).
        - destruct Hcase as (_ & -> & _). done.
        - destruct Hcase as (_ & -> & _). rewrite lookup_app_l; [done|].
          by eapply lookup_lt_Some. }
      eapply IH; eauto. by rewrite Hcur.
    + apply andb_prop in Hnot as [Hhere Hrest].
      rewrite step_other in Hs by done.
      destruct (blameMap st !! currentHash st) as [a'|] eqn:Ea';
        [destruct (metadata l) as [g|] eqn:Eg|]; injection Hs as <-;
        try (eapply IH; by eauto).
      destruct (metadata_kind _ _ Eg) as (k' & Hk' & Hg).
      destruct (decide (a' = a)) as [->|Hne].
      * assert (Hcur : currentHash st = hash b).
        { destruct (wf_map _ Hwf _ _ Ea') as (b0 & Hb0 & Hh0). congruence. }
        assert (Hkk : k' <> k).
        { intros ->. rewrite Hcur, Hk', !bool_decide_eq_true_2 in Hhere by done.
          discriminate. }
        destruct (IH (mutate a g st) st' a (g b)) as (b' & Hb' & Hhb' & Hfb'); auto.
        -- simpl. by rewrite list_lookup_alter_eq, Ha.
        -- eapply assigns_other; eauto.
        -- simpl. by rewrite (metadata_hash _ _ _ Eg).
        -- exists b'. rewrite Hhb'. by rewrite (metadata_hash _ _ _ Eg) in *.
      * eapply (IH (mutate a' g st)); eauto.
        simpl. by rewrite list_lookup_alter_ne.
Qed.

Lemma metadata_holds m f k b :
  metadata m = Some f -> kind m = Some k -> f b = b -> holds k m b.
Proof.
  unfold metadata, kind. destruct b as [h au t su].
  destruct (startsWith "author " m);
    [intros [= <-] [= <-]; unfold setAuthor; simpl; by intros [= ->]|].
  destruct (startsWith "author-time " m);
    [intros [= <-] [= <-]; unfold setTime; simpl; by intros [= ->]|].
  destruct (startsWith "summary " m);
    [intros [= <-] [= <-]; unfold setSummary; simpl; by intros [= ->]|].
  discriminate.
Qed.

Lemma kind_metadata m k : kind m = Some k -> exists f, metadata m = Some f.
Proof.
  unfold metadata, kind. repeat case_match; eauto; discriminate.
Qed.

(** C4, amended: a metadata line is applied to the object of the hash
    opened by the last header line before it: the author, the time or the
    summary of that object becomes the value of the line.  When the loop
    ends, that field of that object still has the value of the line unless
    a later line of the same field was applied to the same hash, however
    many hunks of other hashes come after; and every entry of that hash
    references this object. *)
Theorem last_metadata_line_is_final (stdout : string) (pre post : list string)
    (m : string) (st1 st2 : state) (a : addr) (k : field) :
  split LF stdout = pre ++ m :: post ->
  run initial pre = Returned st1 ->
  blameMap st1 !! currentHash st1 = Some a ->
  isHeader m = false ->
  kind m = Some k ->
  notReassigned k (currentHash st1) (currentHash st1) post = true ->
  parseState stdout = Returned st2 ->
  currentHash st1 = lastOpened EmptyString pre
  /\ (exists st1' b1, step st1 m = Returned st1'
                      /\ heap st1' !! a = Some b1
                      /\ hash b1 = currentHash st1
                      /\ holds k m b1)
  /\ exists b, heap st2 !! a = Some b
               /\ hash b = currentHash st1
               /\ holds k m b
               /\ forall l b', l ∈ result st2 -> heap st2 !! info l = Some b' ->
                    hash b' = currentHash st1 -> info l = a.
Proof.
  intros Hsplit Hpre Hopen Hh Hk Hnot Hfin.
  destruct (kind_metadata _ _ Hk) as (f & Hm).
  pose proof (wf_run _ _ _ wf_initial Hpre) as Hwf1.
  pose proof (wf_parseState _ _ Hfin) as Hwf2.
  destruct (wf_map _ Hwf1 _ _ Hopen) as (b1 & Hb1 & Hhash1).
  assert (Hstep : step st1 m = Returned (mutate a f st1)).
  { rewrite step_other by done. by rewrite Hopen, Hm. }
  destruct (metadata_kind _ _ Hm) as (k' & Hk' & Hf).
  assert (k' = k) as -> by congruence.
  assert (Hidem : f (f b1) = f b1).
  { destruct k; simpl in Hf; destruct Hf as [v ->]; reflexivity. }
  split; [apply (currentHash_run pre initial st1 Hpre)|]. split.
  { exists (mutate a f st1), (f b1). split; [done|]. simpl.
    rewrite list_lookup_alter_eq, Hb1. simpl. split; [done|].
    split; [by rewrite (metadata_hash _ _ _ Hm)|].
    by apply (metadata_holds m f). }
  unfold parseState in Hfin. rewrite Hsplit, run_app, Hpre in Hfin. simpl in Hfin.
  rewrite Hstep in Hfin. simpl in Hfin.
  destruct (run_keeps_field k f post (mutate a f st1) st2 a (f b1)) as (b & Hb & Hhb & Hfb).
  - done.
  - apply wf_mutate; [|done]. intros b0. by eapply metadata_hash.
  - simpl. by rewrite list_lookup_alter_eq, Hb1.
  - done.
  - simpl. by rewrite (metadata_hash _ _ _ Hm), Hhash1.
  - done.
  - rewrite (metadata_hash _ _ _ Hm), Hhash1 in Hhb.
    exists b. split; [done|]. split; [done|].
    split; [by apply (metadata_holds m f)|].
    intros l b' _ Hb' Hh'.
    pose proof (wf_heap _ Hwf2 _ _ Hb') as H1.
    pose proof (wf_heap _ Hwf2 _ _ Hb) as H2. congruence.
Qed.

Lemma last_metadata_line_is_final_witness :
  let pre := [ (hashA ++ " 1 1 1")%string; "author Bob"%string ] in
  let m := "author-time 1000"%string in
  let st1 := stateAfter pre in
  let st2 := finalState stream_author_twice in
  currentHash st1 = lastOpened EmptyString pre
  /\ (exists st1' b1, step st1 m = Returned st1'
                      /\ heap st1' !! 0%nat = Some b1
                      /\ hash b1 = currentHash st1
                      /\ time b1 = Fin 1000)
  /\ exists b, heap st2 !! 0%nat = Some b
               /\ hash b = currentHash st1
               /\ time b = Fin 1000
               /\ forall l b', l ∈ result st2 -> heap st2 !! info l = Some b' ->
                    hash b' = currentHash st1 -> info l = 0%nat.
Proof.
  apply (last_metadata_line_is_final stream_author_twice
           [ (hashA ++ " 1 1 1")%string; "author Bob"%string ]
           [ (hashB ++ " 2 2 1")%string; "author Carol"%string;
             "author-time 2000"%string; (hashA ++ " 3 3 1")%string;
             "author Alice"%string; EmptyString ]
           "author-time 1000"%string
           (stateAfter [ (hashA ++ " 1 1 1")%string; "author Bob"%string ])
           (finalState stream_author_twice) 0%nat AuthorTime);
    vm_compute; reflexivity.
Defined.

(** C4 as written fails: the line [author Bob] is applied to the commit of
    [hashA], and after the hunk of [hashB] a second author line is applied
    to the same commit; the final object holds [Alice]. *)
Lemma earlier_author_line_is_overwritten :
  parse stream_author_twice =
    Returned [ mkBlameLine (Fin 1) (mkBlameInfo hashA "Alice" (Fin 1000) None);
               mkBlameLine (Fin 2) (mkBlameInfo hashB "Carol" (Fin 2000) None);
               mkBlameLine (Fin 3) (mkBlameInfo hashA "Alice" (Fin 1000) None) ]
  /\ ~ every_metadata_line_is_final.
Proof.
  split; [vm_compute; reflexivity|]. intros H.
  destruct (H stream_author_twice
              [ (hashA ++ " 1 1 1")%string ] "author Bob"%string
              [ "author-time 1000"%string;
                (hashB ++ " 2 2 1")%string; "author Carol"%string;
                "author-time 2000"%string; (hashA ++ " 3 3 1")%string;
                "author Alice"%string; EmptyString ]
              (stateAfter [ (hashA ++ " 1 1 1")%string ])
              (finalState stream_author_twice) 0%nat Author)
    as (b & Hb & Hfb); try (vm_compute; reflexivity).
  vm_compute in Hb. injection Hb as <-. vm_compute in Hfb. discriminate Hfb.
Qed.

(** ** Numbers *)

Lemma toDouble_small z : Z.abs z < 2 ^ 53 -> toDouble z = Fin z.
Proof.
  intros H. unfold toDouble.
  destruct (Z.ltb_spec (Z.abs z) (2 ^ 53)); [reflexivity | lia].
Qed.

Lemma toDouble_large z :
  2 ^ 53 <= Z.abs z ->
  exists q e, 2 ^ 52 <= q <= 2 ^ 53 /\ 1 <= e /\ e = Z.log2 (Z.abs z) - 52 /\
    toDouble z = if 2 ^ 1024 <=? q * 2 ^ e then Infinity (z <? 0)
                 else Fin (Z.sgn z * (q * 2 ^ e)).
Proof.
  intros H. unfold toDouble.
  destruct (Z.ltb_spec (Z.abs z) (2 ^ 53)) as [?|_]; [lia|].
  set (a := Z.abs z) in *. set (e := Z.log2 a - 52).
  assert (Ha : 0 < a) by lia.
  pose proof (Z.log2_spec a Ha) as [Hlo Hhi].
  assert (HL : 53 <= Z.log2 a).
  { change 53 with (Z.log2 (2 ^ 53)). apply Z.log2_le_mono. exact H. }
  assert (He : 1 <= e) by (unfold e; lia).
  assert (Hpe : 0 < 2 ^ e) by (apply Z.pow_pos_nonneg; lia).
  assert (Hsplit : 2 ^ Z.log2 a = 2 ^ 52 * 2 ^ e).
  { rewrite <- Z.pow_add_r by lia. f_equal. unfold e. lia. }
  assert (Hsplit' : 2 ^ Z.succ (Z.log2 a) = 2 ^ 53 * 2 ^ e).
  { rewrite <- Z.pow_add_r by lia. f_equal. unfold e. lia. }
  assert (Hq : 2 ^ 52 <= a / 2 ^ e < 2 ^ 53).
  { split.
    - apply Z.div_le_lower_bound; [done|]. rewrite Z.mul_comm. lia.
    - apply Z.div_lt_upper_bound; [done|]. rewrite Z.mul_comm. lia. }
  eexists _, e. split; [|split; [exact He|split; [reflexivity|reflexivity]]].
  destruct (_ || _); lia.
Qed.

Lemma toDouble_Fin_small w i : toDouble w = Fin i -> Z.abs i < 2 ^ 53 -> w = i.
Proof.
  intros H Hi. destruct (Z.lt_ge_cases (Z.abs w) (2 ^ 53)) as [Hs|Hl].
  - rewrite toDouble_small in H by done. by injection H.
  - destruct (toDouble_large w Hl) as (q & e & Hq & He & _ & Heq).
    rewrite Heq in H. destruct (2 ^ 1024 <=? q * 2 ^ e); [discriminate|].
    injection H as <-.
    assert (2 ^ 1 <= 2 ^ e) by (apply Z.pow_le_mono_r; lia).
    assert (2 ^ 53 <= q * 2 ^ e) by nia.
    destruct w; simpl in *; lia.
Qed.

Lemma toDouble_finite z :
  Z.abs z < 2 ^ 1023 -> exists v, toDouble z = Fin v /\ (z <> 0 -> v <> 0).
Proof.
  intros H. destruct (Z.lt_ge_cases (Z.abs z) (2 ^ 53)) as [Hs|Hl].
  - rewrite toDouble_small by done. eauto.
  - destruct (toDouble_large z Hl) as (q & e & Hq & He & Hdef & ->).
    assert (Hlog : Z.log2 (Z.abs z) < 1023) by (apply Z.log2_lt_pow2; lia).
    assert (Hpe : 0 < 2 ^ e) by (apply Z.pow_pos_nonneg; lia).
    assert (Hb : 2 ^ 53 * 2 ^ e <= 2 ^ 1023).
    { rewrite <- Z.pow_add_r by lia. apply Z.pow_le_mono_r; lia. }
    assert (Hv : 0 < q * 2 ^ e < 2 ^ 1024) by nia.
    destruct (Z.leb_spec (2 ^ 1024) (q * 2 ^ e)); [lia|].
    eexists. split; [reflexivity|]. intros Hz. destruct z; simpl in *; lia.
Qed.

Lemma sub_self x : sub (Fin x) (Fin x) = Fin 0.
Proof. unfold sub; simpl. by rewrite Z.add_opp_diag_r. Qed.

Lemma div_zero_l v : v <> 0 -> div (Fin 0) (Fin v) = Ratio (0 # 1).
Proof.
  intros Hv. unfold div. destruct (Z.eqb_spec v 0); [done|].
  rewrite Z.mul_0_l. reflexivity.
Qed.

Lemma div_self v : v <> 0 -> div (Fin v) (Fin v) = Ratio (1 # 1).
Proof.
  intros Hv. unfold div. destruct (Z.eqb_spec v 0); [done|].
  f_equal. change (1 # 1) with (Qred (1 # 1)). apply Qred_complete.
  unfold Qeq. simpl. rewrite Z2Pos.id by lia. destruct v; simpl; lia.
Qed.


(** ** The range of ages and the line map *)

Ltac number_cases :=
  repeat match goal with
         | x : number |- _ => destruct x as [|[]|?]
         end;
  simpl in *; try done;
  rewrite ?Z.ltb_lt, ?Z.ltb_ge in *; try lia.

Lemma lt_lower t m0 m : lt t m0 = true -> lt t m = false -> lt m0 m = false.
Proof. unfold lt. number_cases. Qed.

Lemma lt_keep t m0 m : m0 <> NaN -> lt t m0 = false -> lt m0 m = false -> lt t m = false.
Proof. unfold lt. number_cases. Qed.

Lemma lt_raise t m0 m : lt m0 t = true -> lt m t = false -> lt m m0 = false.
Proof. unfold lt. number_cases. Qed.

Lemma lt_keep_max t m0 m : m0 <> NaN -> lt m0 t = false -> lt m m0 = false -> lt m t = false.
Proof. unfold lt. number_cases. Qed.

Lemma lt_not_NaN a b : lt a b = true -> a <> NaN /\ b <> NaN.
Proof. unfold lt. number_cases. Qed.

Lemma lt_irrefl a : lt a a = false.
Proof. unfold lt. number_cases. Qed.

Lemma updateRange_not_NaN mn0 mx0 l mn1 mx1 :
  mn0 <> NaN -> mx0 <> NaN -> updateRange (mn0, mx0) l = (mn1, mx1) ->
  mn1 <> NaN /\ mx1 <> NaN.
Proof.
  unfold updateRange, gt. intros Hn Hx [= <- <-]. split.
  - destruct (lt _ mn0) eqn:E; [by apply lt_not_NaN in E as []|done].
  - destruct (lt mx0 _) eqn:E; [by apply lt_not_NaN in E as []|done].
Qed.

Lemma range_bounds table : forall mn0 mx0 mn mx,
  mn0 <> NaN -> mx0 <> NaN ->
  foldl updateRange (mn0, mx0) table = (mn, mx) ->
  lt mn0 mn = false /\ gt mx0 mx = false /\
  forall l, l ∈ table -> lt (time (info l)) mn = false /\ gt (time (info l)) mx = false.
Proof.
  induction table as [|x xs IH]; simpl; intros mn0 mx0 mn mx Hn Hx H.
  - injection H as <- <-. unfold gt. rewrite !lt_irrefl.
    repeat split; by apply not_elem_of_nil in H.
  - destruct (updateRange (mn0, mx0) x) as [mn1 mx1] eqn:E.
    destruct (updateRange_not_NaN _ _ _ _ _ Hn Hx E) as [Hn1 Hx1].
    assert (H' : foldl updateRange (mn1, mx1) xs = (mn, mx)) by (rewrite <- E; exact H).
    destruct (IH _ _ _ _ Hn1 Hx1 H') as (H1 & H2 & H3).
    unfold updateRange, gt in *. injection E as <- <-.
    set (t := time (info x)) in *.
    assert (Hmn : lt mn0 mn = false /\ lt t mn = false).
    { destruct (lt t mn0) eqn:E1; eauto using lt_lower, lt_keep. }
    assert (Hmx : lt mx mx0 = false /\ lt mx t = false).
    { destruct (lt mx0 t) eqn:E2; eauto using lt_raise, lt_keep_max. }
    destruct Hmn, Hmx. split; [done|]. split; [done|].
    intros l [->|Hl]%elem_of_cons; [done | by apply H3].
Qed.

Lemma range_attained table : forall mn0 mx0 mn mx,
  foldl updateRange (mn0, mx0) table = (mn, mx) ->
  (mn = mn0 \/ exists l, l ∈ table /\ time (info l) = mn)
  /\ (mx = mx0 \/ exists l, l ∈ table /\ time (info l) = mx).
Proof.
  induction table as [|x xs IH]; simpl; intros mn0 mx0 mn mx H.
  - injection H as <- <-. auto.
  - destruct (updateRange (mn0, mx0) x) as [mn1 mx1] eqn:E.
    assert (H' : foldl updateRange (mn1, mx1) xs = (mn, mx)) by (rewrite <- E; exact H).
    destruct (IH _ _ _ _ H') as [Hmn Hmx].
    unfold updateRange in E. injection E as <- <-. split.
    + destruct Hmn as [->|(l & Hl & <-)].
      * destruct (lt _ mn0); [right; exists x; split; [left|done] | by left].
      * right. exists l. split; [by right | done].
    + destruct Hmx as [->|(l & Hl & <-)].
      * destruct (gt _ mx0); [right; exists x; split; [left|done] | by left].
      * right. exists l. split; [by right | done].
Qed.

Lemma timeRange_attained table mn mx :
  timeRange table = (mn, mx) ->
  (exists l, l ∈ table /\ time (info l) <> NaN) ->
  (exists l, l ∈ table /\ time (info l) = mn)
  /\ (exists l, l ∈ table /\ time (info l) = mx).
Proof.
  unfold timeRange. intros H (l & Hl & Ht).
  destruct (range_bounds table (Infinity false) (Infinity true) mn mx) as (_ & _ & Hb);
    [done..|].
  destruct (Hb _ Hl) as [Hlo Hhi]. clear Hb.
  destruct (range_attained _ _ _ _ _ H) as [[->|Hmn] [->|Hmx]]; try done;
    clear H; unfold gt, lt in *.
  - destruct (time (info l)) as [|[]|?]; done.
  - split; [exists l; split; [done|] | done].
    destruct (time (info l)) as [|[]|?]; done.
  - split; [done | exists l; split; [done|]].
    destruct (time (info l)) as [|[]|?]; done.
Qed.

Lemma lineToBlame_lookup table k :
  lineToBlame table !! k =
  info <$> last (List.filter (fun l => bool_decide (sub (line l) (Fin 1) = k)) table).
Proof.
  unfold lineToBlame. induction table as [|x xs IH] using rev_ind; [done|].
  rewrite foldl_snoc, List.filter_app. unfold setLine at 1. simpl.
  case_bool_decide as Hk.
  - rewrite Hk, lookup_insert_eq, last_snoc. done.
  - rewrite lookup_insert_ne by done. by rewrite app_nil_r.
Qed.

Lemma zero_based_line x i :
  0 <= i -> i + 1 < 2 ^ 53 -> sub x (Fin 1) = Fin i <-> x = Fin (i + 1).
Proof.
  intros H0 H1. split.
  - destruct x as [|s|z]; simpl; try discriminate.
    unfold sub; simpl. intros H. apply toDouble_Fin_small in H; [|lia].
    f_equal. lia.
  - intros ->. unfold sub; simpl. rewrite toDouble_small by lia. f_equal. lia.
Qed.

Lemma lineToBlame_line table i :
  0 <= i -> i + 1 < 2 ^ 53 ->
  lineToBlame table !! Fin i =
  info <$> last (List.filter (fun l => bool_decide (line l = Fin (i + 1))) table).
Proof.
  intros H0 H1. rewrite lineToBlame_lookup. do 2 f_equal.
  apply List.filter_ext. intros l. apply bool_decide_ext, zero_based_line; done.
Qed.

Lemma lineToBlame_elem table k b :
  lineToBlame table !! k = Some b ->
  exists l, l ∈ table /\ info l = b /\ sub (line l) (Fin 1) = k.
Proof.
  rewrite lineToBlame_lookup.
  destruct (last _) as [l|] eqn:E; [|discriminate]. intros [= <-].
  apply last_Some_elem_of, list_elem_of_In, List.filter_In in E as [Hin Hk].
  exists l. split; [by apply list_elem_of_In|]. split; [done|].
  by apply bool_decide_eq_true in Hk.
Qed.

(** ** Decorations *)

Lemma applyDecorations_length tz dark n table :
  length (applyDecorations tz dark n table) = n.
Proof.
  unfold applyDecorations. destruct (timeRange table).
  by rewrite length_fmap, length_seq.
Qed.

Lemma applyDecorations_lookup tz dark n table i :
  (i < n)%nat ->
  applyDecorations tz dark n table !! i =
  Some (decorate tz dark (fst (timeRange table)) (snd (timeRange table))
          (lineToBlame table) i).
Proof.
  intros Hi. unfold applyDecorations. destruct (timeRange table) as [mn mx].
  by rewrite list_lookup_fmap, lookup_seq_lt.
Qed.

Lemma decorate_rangeLine tz dark mn mx m i : rangeLine (decorate tz dark mn mx m i) = i.
Proof.
  unfold decorate. destruct (m !! _) as [b|]; [destruct (gt _ _)|]; reflexivity.
Qed.

Lemma decorate_placeholder tz dark mn mx (m : gmap number BlameInfo) i :
  decorate tz dark mn mx m i = placeholder i
  <-> (m !! Fin (Z.of_nat i) = None
       \/ exists b, m !! Fin (Z.of_nat i) = Some b /\ gt (time b) (Fin 0) = false).
Proof.
  unfold decorate. destruct (m !! _) as [b|]; [destruct (gt _ _) eqn:E|].
  - split; [discriminate|]. intros [?|(b' & [= <-] & ?)]; congruence.
  - split; [eauto|done].
  - split; [auto|done].
Qed.

Lemma decorate_rendered tz dark mn mx (m : gmap number BlameInfo) i b :
  m !! Fin (Z.of_nat i) = Some b -> gt (time b) (Fin 0) = true ->
  decorate tz dark mn mx m i =
  mkDecoration i (label tz b) (colorFromRatio dark (ageRatio mn mx (time b)))
    (Some (if dark then "#cccccc" else "#555555")%string).
Proof. unfold decorate. by intros -> ->. Qed.

(** C2, amended: [minTime] and [maxTime] are the minimum and the maximum
    of the timestamps of all the entries of the table, those at or below 0
    included ([NaN] alone never counts): no entry lies outside the range,
    both ends are the timestamp of some entry as soon as one timestamp is
    a number, and when no entry has a timestamp above 0 every line gets
    the placeholder, so that no ratio is computed at all. *)
Theorem range_over_all_times (tz : Z -> Z) (dark : bool)
    (table : list (BlameLine BlameInfo)) (mn mx : number) :
  timeRange table = (mn, mx) ->
  (forall l, l ∈ table -> lt (time (info l)) mn = false /\ gt (time (info l)) mx = false)
  /\ ((exists l, l ∈ table /\ time (info l) <> NaN) ->
      (exists l, l ∈ table /\ time (info l) = mn)
      /\ (exists l, l ∈ table /\ time (info l) = mx))
  /\ ((forall l, l ∈ table -> gt (time (info l)) (Fin 0) = false) ->
      forall n, applyDecorations tz dark n table = placeholder <$> seq 0 n).
Proof.
  intros H. split; [|split].
  - by destruct (range_bounds table (Infinity false) (Infinity true) mn mx) as (_ & _ & Hb).
  - by apply timeRange_attained.
  - intros Hnone n. unfold applyDecorations. rewrite H.
    apply list_fmap_ext. intros _ i _. apply decorate_placeholder.
    destruct (lineToBlame table !! Fin (Z.of_nat i)) as [b|] eqn:E; [right|by left].
    exists b. split; [done|].
    apply lineToBlame_elem in E as (l & Hl & <- & _). by apply Hnone.
Qed.

Lemma range_over_all_times_witness :
  (forall l, l ∈ table_with_unset_time ->
     lt (time (info l)) (Fin 0) = false /\ gt (time (info l)) (Fin 200) = false)
  /\ ((exists l, l ∈ table_with_unset_time /\ time (info l) <> NaN) ->
      (exists l, l ∈ table_with_unset_time /\ time (info l) = Fin 0)
      /\ (exists l, l ∈ table_with_unset_time /\ time (info l) = Fin 200))
  /\ ((forall l, l ∈ table_with_unset_time -> gt (time (info l)) (Fin 0) = false) ->
      forall n, applyDecorations UTC true n table_with_unset_time = placeholder <$> seq 0 n).
Proof.
  apply (range_over_all_times UTC true table_with_unset_time (Fin 0) (Fin 200)).
  vm_compute. reflexivity.
Defined.

(** C2 as written fails: the entry with timestamp 0 sets [minTime] to 0,
    where the entries with a timestamp above 0 alone give 100, and the
    line dated 100 gets ratio 1/2. *)
Lemma unset_time_lowers_minTime :
  parse stream_with_unset_time = Returned table_with_unset_time
  /\ timeRange table_with_unset_time = (Fin 0, Fin 200)
  /\ timeRange (observed table_with_unset_time) = (Fin 100, Fin 200)
  /\ backgroundColor <$> applyDecorations UTC true 3 table_with_unset_time
     = [ transparent; colorFromRatio true (Ratio (1 # 2)); colorFromRatio true (Ratio (0 # 1)) ]
  /\ ~ range_over_positive_times.
Proof.
  split; [vm_compute; reflexivity|].
  split; [vm_compute; reflexivity|].
  split; [vm_compute; reflexivity|].
  split; [vm_compute; reflexivity|].
  intros H. specialize (H table_with_unset_time). vm_compute in H. discriminate H.
Qed.

(** ** The age ratio *)

Lemma sub_safe x y :
  Z.abs x < 2 ^ 53 -> Z.abs y < 2 ^ 53 -> x <> y ->
  exists v, sub (Fin x) (Fin y) = Fin v /\ v <> 0.
Proof.
  intros Hx Hy Hne. unfold sub; simpl.
  destruct (toDouble_finite (x + - y)) as (v & Hv & Hnz); [lia|].
  exists v. split; [done|]. apply Hnz. lia.
Qed.

Lemma ageRatio_newest mn x :
  isSafeInteger mn = true -> Z.abs x < 2 ^ 53 ->
  ageRatio mn (Fin x) (Fin x) = Ratio (0 # 1).
Proof.
  destruct mn as [| |y]; try discriminate. simpl. intros Hy%Z.ltb_lt Hx.
  unfold ageRatio. destruct (strictNe (Fin x) (Fin y)) eqn:E; [|reflexivity].
  replace (strictNe (Fin y) (Infinity false)) with true
    by (unfold strictNe; by rewrite bool_decide_eq_false_2).
  cbn [andb]. rewrite sub_self.
  assert (x <> y).
  { intros ->. unfold strictNe in E. by rewrite bool_decide_eq_true_2 in E. }
  destruct (sub_safe x y) as (v & -> & Hv); [done..|]. by apply div_zero_l.
Qed.

Lemma ageRatio_oldest x y :
  Z.abs x < 2 ^ 53 -> Z.abs y < 2 ^ 53 -> x <> y ->
  ageRatio (Fin y) (Fin x) (Fin y) = Ratio (1 # 1).
Proof.
  intros Hx Hy Hne. unfold ageRatio, strictNe.
  rewrite !bool_decide_eq_false_2 by congruence. cbn [negb andb].
  destruct (sub_safe x y) as (v & -> & Hv); [done..|]. by apply div_self.
Qed.

Lemma ageRatio_single mn t : mn <> NaN -> ageRatio mn mn t = Ratio (0 # 1).
Proof.
  intros H. unfold ageRatio, strictNe.
  destruct mn as [|s|z]; [done| |]; by rewrite bool_decide_eq_true_2.
Qed.

(** C3, amended: in a table whose timestamps are safe integers, a line
    that is rendered (its timestamp is above 0) gets ratio 0 when its
    timestamp is the maximum over all entries of the table, ratio 1 when
    its timestamp is the minimum over all entries and differs from the
    maximum, and ratio 0 when minimum and maximum coincide. *)
Theorem ratio_at_the_ends_of_the_range (tz : Z -> Z) (dark : bool) (n : nat)
    (table : list (BlameLine BlameInfo)) (mn mx : number) (i : nat) (b : BlameInfo) :
  Forall (fun l => isSafeInteger (time (info l)) = true) table ->
  timeRange table = (mn, mx) ->
  (i < n)%nat ->
  lineToBlame table !! Fin (Z.of_nat i) = Some b ->
  gt (time b) (Fin 0) = true ->
  exists d r,
    applyDecorations tz dark n table !! i = Some d
    /\ backgroundColor d = colorFromRatio dark r
    /\ (time b = mx -> r = Ratio (0 # 1))
    /\ (time b = mn -> mn <> mx -> r = Ratio (1 # 1))
    /\ (mn = mx -> r = Ratio (0 # 1)).
Proof.
  intros Hsafe Hrange Hi Hb Hpos.
  rewrite Forall_forall in Hsafe.
  destruct (lineToBlame_elem _ _ _ Hb) as (l & Hl & Hinfo & _).
  destruct (timeRange_attained table mn mx Hrange) as [(l1 & Hl1 & H1) (l2 & Hl2 & H2)].
  { exists l. split; [done|]. pose proof (Hsafe _ Hl) as Hs. rewrite Hinfo in *.
    by destruct (time b). }
  pose proof (Hsafe _ Hl1) as Hs1. pose proof (Hsafe _ Hl2) as Hs2.
  rewrite H1 in Hs1. rewrite H2 in Hs2.
  pose proof (Hsafe _ Hl) as Hs. rewrite Hinfo in Hs.
  eexists _, _. split; [by apply applyDecorations_lookup|].
  rewrite Hrange. simpl. erewrite decorate_rendered by done. simpl.
  split; [reflexivity|].
  destruct mn as [| |y]; try discriminate. destruct mx as [| |x]; try discriminate.
  destruct (time b) as [| |t]; try discriminate.
  simpl in Hs, Hs1, Hs2. apply Z.ltb_lt in Hs, Hs1, Hs2.
  split; [|split].
  - intros [= ->]. by apply ageRatio_newest; [apply Z.ltb_lt|].
  - intros [= ->] Hne. apply ageRatio_oldest; [done..|congruence].
  - intros [= ->]. by apply ageRatio_single.
Qed.

Lemma ratio_at_the_ends_of_the_range_witness :
  exists d r,
    applyDecorations UTC true 3 table_with_unset_time !! 2%nat = Some d
    /\ backgroundColor d = colorFromRatio true r
    /\ (Fin 200 = Fin 200 -> r = Ratio (0 # 1))
    /\ (Fin 200 = Fin 0 -> Fin 0 <> Fin 200 -> r = Ratio (1 # 1))
    /\ (Fin 0 = Fin 200 -> r = Ratio (0 # 1)).
Proof.
  apply (ratio_at_the_ends_of_the_range UTC true 3 table_with_unset_time
           (Fin 0) (Fin 200) 2 (mkBlameInfo hashB "Carol" (Fin 200) None)).
  - repeat constructor.
  - vm_compute. reflexivity.
  - lia.
  - vm_compute. reflexivity.
  - vm_compute. reflexivity.
Defined.

(** C3 as written fails: of three lines dated 0, 100 and 200, the first
    gets the placeholder, the second ratio 1/2 and the third ratio 0; no
    line gets ratio 1, whether the minimum is taken over all the entries
    (0) or over the entries with a timestamp above 0 (100). *)
Lemma no_line_gets_ratio_one :
  backgroundColor <$> applyDecorations UTC true 3 table_with_unset_time
    = [ transparent; colorFromRatio true (Ratio (1 # 2)); colorFromRatio true (Ratio (0 # 1)) ]
  /\ ~ oldest_line_gets_ratio_one timeRange
  /\ ~ oldest_line_gets_ratio_one (fun table => timeRange (observed table)).
Proof.
  split; [vm_compute; reflexivity|]. split; intros H.
  - destruct (H UTC true 3%nat table_with_unset_time 0%nat
                (mkBlameInfo hashC EmptyString (Fin 0) None))
      as (d & Hd & Hc); try (vm_compute; reflexivity); [lia | vm_compute; discriminate |].
    vm_compute in Hd. injection Hd as <-. discriminate Hc.
  - destruct (H UTC true 3%nat table_with_unset_time 1%nat
                (mkBlameInfo hashA "Bob" (Fin 100) None))
      as (d & Hd & Hc); try (vm_compute; reflexivity); [lia | vm_compute; discriminate |].
    vm_compute in Hd. injection Hd as <-. discriminate Hc.
Qed.

(** C7, amended: a document of [n] lines gets [n] decorations, the one of
    index [i] on line [i], and it is the placeholder exactly when line
    [i + 1] has no attribution or the timestamp of its commit is not above
    0 (zero, negative or [NaN]). *)
Theorem one_decoration_per_line (tz : Z -> Z) (dark : bool) (n : nat)
    (table : list (BlameLine BlameInfo)) :
  Z.of_nat n < 2 ^ 53 ->
  length (applyDecorations tz dark n table) = n
  /\ forall i, (i < n)%nat ->
       exists d, applyDecorations tz dark n table !! i = Some d
                 /\ rangeLine d = i
                 /\ (d = placeholder i
                     <-> (attribution table (Z.of_nat i + 1) = None
                          \/ exists b, attribution table (Z.of_nat i + 1) = Some b
                                       /\ gt (time b) (Fin 0) = false)).
Proof.
  intros Hn. split; [apply applyDecorations_length|]. intros i Hi.
  eexists. split; [by apply applyDecorations_lookup|].
  split; [apply decorate_rangeLine|].
  rewrite decorate_placeholder. unfold attribution.
  by rewrite lineToBlame_line by lia.
Qed.

Lemma one_decoration_per_line_witness :
  length (applyDecorations UTC true 3 table_with_unset_time) = 3%nat
  /\ forall i, (i < 3)%nat ->
       exists d, applyDecorations UTC true 3 table_with_unset_time !! i = Some d
                 /\ rangeLine d = i
                 /\ (d = placeholder i
                     <-> (attribution table_with_unset_time (Z.of_nat i + 1) = None
                          \/ exists b, attribution table_with_unset_time (Z.of_nat i + 1) = Some b
                                       /\ gt (time b) (Fin 0) = false)).
Proof.
  apply (one_decoration_per_line UTC true 3 table_with_unset_time).
  vm_compute. reflexivity.
Defined.

(** C7 as written fails: a line whose commit is dated before the epoch has
    an attribution with a timestamp other than 0, and gets the
    placeholder. *)
Lemma negative_time_gets_placeholder :
  parse stream_before_epoch = Returned table_before_epoch
  /\ applyDecorations UTC true 1 table_before_epoch = [placeholder 0]
  /\ attribution table_before_epoch 1 = Some (mkBlameInfo hashA "Bob" (Fin (-5)) None)
  /\ ~ placeholder_iff_unattributed_or_time_zero.
Proof.
  split; [vm_compute; reflexivity|].
  split; [vm_compute; reflexivity|].
  split; [vm_compute; reflexivity|].
  intros H.
  destruct (H UTC true 1%nat table_before_epoch 0%nat) as [Hto _];
    [lia | vm_compute; reflexivity |].
  destruct Hto as [Hnone | (b & Hb & Ht)].
  - vm_compute. reflexivity.
  - vm_compute in Hnone. discriminate Hnone.
  - vm_compute in Hb. injection Hb as <-. discriminate Ht.
Qed.

(** ** Labels *)

Lemma forallRange_spec (p : Z -> bool) n : forall lo z,
  forallRange p lo n = true -> lo <= z < lo + Z.of_nat n -> p z = true.
Proof.
  induction n as [|k IH]; simpl; intros lo z H Hz; [lia|].
  apply andb_prop in H as [Hlo Hrest].
  destruct (Z.eq_dec z lo) as [->|Hne]; [done|].
  apply (IH (lo + 1)); [done | lia].
Qed.

Lemma monthAndDayInRange_era doe :
  0 <= doe < 146097 -> monthAndDayInRange doe = true.
Proof.
  intros H. apply (forallRange_spec _ (Z.to_nat 146097) 0); [vm_compute; reflexivity | lia].
Qed.

Lemma civil_fields_in_range days :
  1 <= snd (fst (civilFromDays days)) <= 12 /\ 1 <= snd (civilFromDays days) <= 31.
Proof.
  unfold civilFromDays.
  pose proof (monthAndDayInRange_era ((days + 719468) mod 146097)) as H.
  unfold monthAndDayInRange in H.
  destruct (civilOfEra _) as [[y m] d]. simpl.
  specialize (H (Z.mod_pos_bound _ 146097 ltac:(lia))).
  rewrite !andb_true_iff, !Z.leb_le in H. lia.
Qed.

Lemma padded_two_digits n :
  0 <= n < 100 -> padStart 2 "0" (decimal n) = twoDigits n.
Proof.
  intros H. apply String.eqb_eq. fold (paddedIsTwoDigits n).
  apply (forallRange_spec _ (Z.to_nat 100) 0); [vm_compute; reflexivity | lia].
Qed.

Lemma four_digit_year y :
  1000 <= y <= 9999 -> String.length (decimal y) = 4%nat.
Proof.
  intros H. apply Nat.eqb_eq. fold (hasFourDigits y).
  apply (forallRange_spec _ (Z.to_nat 9000) 1000); [vm_compute; reflexivity | lia].
Qed.

Lemma string_app_cons x (a b : string) : (String x a ++ b = String x (a ++ b))%string.
Proof. reflexivity. Qed.

Lemma string_length_app (a b : string) :
  String.length (a ++ b) = (String.length a + String.length b)%nat.
Proof.
  induction a as [|c a IH]; [reflexivity|].
  rewrite string_app_cons. simpl. by rewrite IH.
Qed.

Lemma string_app_assoc (a b c : string) : (a ++ (b ++ c) = (a ++ b) ++ c)%string.
Proof.
  induction a as [|x a IH]; [reflexivity|].
  rewrite !string_app_cons. by rewrite IH.
Qed.

Lemma length_repeat c n : String.length (repeat c n) = n.
Proof. induction n as [|n IH]; simpl; [reflexivity | by rewrite IH]. Qed.

Lemma length_substringTo n s :
  (n <= String.length s)%nat -> String.length (substringTo n s) = n.
Proof.
  revert s; induction n as [|n IH]; intros [|c s]; simpl; try lia.
  intros H. rewrite IH by lia. reflexivity.
Qed.

Lemma authorLabel_length name : String.length (authorLabel name) = 6%nat.
Proof.
  unfold authorLabel. destruct name as [|c r]; [reflexivity|].
  destruct (Nat.ltb_spec 6 (String.length (String c r))).
  - apply length_substringTo. lia.
  - unfold padEnd. rewrite string_length_app, length_repeat. lia.
Qed.

Lemma authorLabel_nonempty name :
  name <> EmptyString -> authorLabel name = fitToSix name.
Proof. unfold authorLabel. destruct name; [done | reflexivity]. Qed.

(** The date of a commit dated above 0 and within the range of [Date]. *)
Lemma dateStr_valid tz t :
  0 < t -> t * 1000 <= 8640000000000000 ->
  dateStr tz (Fin t) =
    (decimal (YearFromTime (LocalTime tz (t * 1000))) ++ "/"
     ++ twoDigits (MonthFromTime (LocalTime tz (t * 1000)) + 1) ++ "/"
     ++ twoDigits (DateFromTime (LocalTime tz (t * 1000))))%string
  \/ YearFromTime (LocalTime tz (t * 1000)) < 0.
Proof.
  intros H0 H1. unfold dateStr.
  assert (Hm : mul (Fin t) (Fin 1000) = Fin (t * 1000)).
  { simpl. apply toDouble_small. lia. }
  rewrite Hm. unfold newDate.
  destruct (Z.leb_spec (Z.abs (t * 1000)) 8640000000000000) as [_|?]; [|lia].
  unfold getFullYear, getMonth, getDate.
  set (local := LocalTime tz (t * 1000)).
  destruct (civil_fields_in_range (Day local)) as [Hmonth Hday].
  fold (DateFromTime local) in Hday.
  assert (Hmonth' : 0 <= MonthFromTime local <= 11) by (unfold MonthFromTime; lia).
  destruct (Z.ltb_spec (YearFromTime local) 0) as [Hneg|Hpos]; [by right|left].
  assert (Hadd : add (Fin (MonthFromTime local)) (Fin 1) = Fin (MonthFromTime local + 1)).
  { simpl. apply toDouble_small. lia. }
  rewrite Hadd. unfold toString.
  destruct (Z.ltb_spec (YearFromTime local) 0); [lia|].
  destruct (Z.ltb_spec (MonthFromTime local + 1) 0); [lia|].
  destruct (Z.ltb_spec (DateFromTime local) 0); [lia|].
  by rewrite !padded_two_digits by lia.
Qed.

(** C6, amended: for a commit dated above 0 whose local date is a valid
    [Date] in the years 1000 to 9999, the label is the four digits of the
    year, a slash, the two digits of the month, a slash, the two digits of
    the day, a space and six characters of author: the name cut to six
    characters when longer, the name filled with spaces when not longer and
    not empty, and [Unknow] when the name is empty.  The label has 17
    characters whatever the name. *)
Theorem label_has_fixed_width (tz : Z -> Z) (b : BlameInfo) (t : Z) :
  time b = Fin t ->
  0 < t ->
  t * 1000 <= 8640000000000000 ->
  1000 <= YearFromTime (LocalTime tz (t * 1000)) <= 9999 ->
  label tz b =
    (decimal (YearFromTime (LocalTime tz (t * 1000))) ++ "/"
     ++ twoDigits (MonthFromTime (LocalTime tz (t * 1000)) + 1) ++ "/"
     ++ twoDigits (DateFromTime (LocalTime tz (t * 1000))) ++ " "
     ++ authorLabel (author b))%string
  /\ String.length (decimal (YearFromTime (LocalTime tz (t * 1000)))) = 4%nat
  /\ String.length (label tz b) = 17%nat
  /\ (author b <> EmptyString -> authorLabel (author b) = fitToSix (author b))
  /\ (author b = EmptyString -> authorLabel (author b) = "Unknow"%string).
Proof.
  intros Ht H0 H1 Hy.
  assert (Hlabel : label tz b =
    (decimal (YearFromTime (LocalTime tz (t * 1000))) ++ "/"
     ++ twoDigits (MonthFromTime (LocalTime tz (t * 1000)) + 1) ++ "/"
     ++ twoDigits (DateFromTime (LocalTime tz (t * 1000))) ++ " "
     ++ authorLabel (author b))%string).
  { unfold label. rewrite Ht.
    destruct (dateStr_valid tz t H0 H1) as [-> | ?]; [|lia].
    by rewrite <- !string_app_assoc. }
  pose proof (four_digit_year _ Hy) as H4.
  split; [done|]. split; [done|]. split; [|split].
  - rewrite Hlabel, !string_length_app, H4, authorLabel_length. reflexivity.
  - apply authorLabel_nonempty.
  - intros ->. reflexivity.
Qed.

Lemma label_has_fixed_width_witness :
  let b := mkBlameInfo hashA "Al" (Fin 1700000000) None in
  label UTC b = "2023/11/14 Al    "%string
  /\ String.length (decimal 2023) = 4%nat
  /\ String.length (label UTC b) = 17%nat
  /\ (author b <> EmptyString -> authorLabel (author b) = fitToSix (author b))
  /\ (author b = EmptyString -> authorLabel (author b) = "Unknow"%string).
Proof.
  apply (label_has_fixed_width UTC (mkBlameInfo hashA "Al" (Fin 1700000000) None) 1700000000);
    vm_compute; first [reflexivity | discriminate | (split; discriminate)].
Defined.

(** C6 as written fails: an empty author name gives [Unknow], not six
    spaces, and from the year 10000 on the year has five digits and the
    label 18 characters. *)
Lemma label_of_empty_author_or_late_year :
  label UTC (mkBlameInfo hashA EmptyString (Fin 1700000000) None) = "2023/11/14 Unknow"%string
  /\ label UTC (mkBlameInfo hashA "Alexandria" (Fin 253402300800) None)
     = "10000/01/01 Alexan"%string
  /\ ~ label_is_date_and_fitted_author.
Proof.
  split; [vm_compute; reflexivity|]. split; [vm_compute; reflexivity|].
  intros H.
  destruct (H UTC (mkBlameInfo hashA EmptyString (Fin 1700000000) None) 1700000000)
    as [Hl _]; [reflexivity | lia |].
  vm_compute in Hl. discriminate Hl.
Qed.

(** C9: a rendered line (timestamp above 0) whose commit has an empty
    author string shows the date, a space and [Unknow]. *)
Theorem empty_author_shows_Unknow (tz : Z -> Z) (dark : bool) (n : nat)
    (table : list (BlameLine BlameInfo)) (i : nat) (b : BlameInfo) :
  (i < n)%nat ->
  lineToBlame table !! Fin (Z.of_nat i) = Some b ->
  gt (time b) (Fin 0) = true ->
  author b = EmptyString ->
  exists d, applyDecorations tz dark n table !! i = Some d
            /\ contentText d = (dateStr tz (time b) ++ " " ++ "Unknow")%string.
Proof.
  intros Hi Hb Hpos Hauthor. eexists. split; [by apply applyDecorations_lookup|].
  erewrite decorate_rendered by done. simpl. unfold label. by rewrite Hauthor.
Qed.

Lemma empty_author_shows_Unknow_witness :
  exists d, applyDecorations UTC false 1 table_without_author !! 0%nat = Some d
            /\ contentText d = "2023/11/14 Unknow"%string.
Proof.
  apply (empty_author_shows_Unknow UTC false 1 table_without_author 0
           (mkBlameInfo hashA EmptyString (Fin 1700000000) (Some "fix"%string)));
    [lia | vm_compute; reflexivity..].
Defined.

(** ** The table as a function of the header lines *)

Lemma keys_resolved st : lineAndHash <$> resolved st = keys (heap st) (result st).
Proof.
  unfold resolved, keys. rewrite list_fmap_omap.
  induction (result st) as [|l ls IH]; [reflexivity|]. csimpl.
  unfold deref at 1. destruct (heap st !! info l); csimpl; by rewrite IH.
Qed.

Lemma keys_app h r1 r2 : keys h (r1 ++ r2) = keys h r1 ++ keys h r2.
Proof. apply omap_app. Qed.

Lemma keys_ext h h' r :
  (forall l, l ∈ r -> hash <$> h' !! info l = hash <$> h !! info l) ->
  keys h' r = keys h r.
Proof.
  unfold keys. induction r as [|l ls IH]; intros H; [reflexivity|]. csimpl.
  rewrite IH by (intros l' Hl'; apply H; by right).
  pose proof (H l ltac:(left)) as Hl.
  destruct (h' !! info l), (h !! info l); simpl in *; congruence.
Qed.

Lemma keys_new h a b lineNum (js : list Z) :
  h !! a = Some b ->
  keys h ((fun j => mkBlameLine (add lineNum (Fin j)) a) <$> js)
  = (fun j => (add lineNum (Fin j), hash b)) <$> js.
Proof.
  intros Ha. unfold keys. induction js as [|j js IH]; [reflexivity|].
  csimpl. rewrite Ha. csimpl. by rewrite IH.
Qed.

(** The entries a header line appends. *)
Lemma header_result st h parts st' :
  header st h parts = Returned st' ->
  exists a,
    blameMap st' !! h = Some a
    /\ result st' = result st ++
         (if bool_decide (h <> ZERO_HASH) then
            match iterations (parseIntArg (parts !! 3%nat)) with
            | Some n => (fun j => mkBlameLine (add (parseIntArg (parts !! 2%nat)) (Fin j)) a)
                          <$> seqZ 0 n
            | None => []
            end
          else []).
Proof.
  unfold header.
  assert (Hpush : forall a r,
    (if bool_decide (h <> ZERO_HASH)
     then pushLines (parseIntArg (parts !! 2%nat)) (parseIntArg (parts !! 3%nat)) a (result st)
     else Returned (result st)) = Returned r ->
    r = result st ++
         (if bool_decide (h <> ZERO_HASH) then
            match iterations (parseIntArg (parts !! 3%nat)) with
            | Some n => (fun j => mkBlameLine (add (parseIntArg (parts !! 2%nat)) (Fin j)) a)
                          <$> seqZ 0 n
            | None => []
            end
          else [])).
  { intros a r. case_bool_decide.
    - unfold pushLines. destruct (iterations _); [|discriminate].
      case_match; [|discriminate]. by intros [= <-].
    - intros [= <-]. by rewrite app_nil_r. }
  destruct (blameMap st !! h) as [a|] eqn:E;
    intros (r & Hr & [= <-])%bind_Returned; apply Hpush in Hr as ->; simpl.
  - exists a. by rewrite E.
  - exists (length (heap st)). by rewrite lookup_insert_eq.
Qed.

Lemma keys_step st line st' :
  wf st -> step st line = Returned st' ->
  keys (heap st') (result st') = keys (heap st) (result st) ++ hunkEntries line.
Proof.
  intros Hwf Hstep. pose proof (wf_step _ _ _ Hwf Hstep) as Hwf'.
  unfold hunkEntries. destruct (isHeader line) eqn:Hh; simpl.
  - rewrite step_header in Hstep by done.
    destruct (header_result _ _ _ _ Hstep) as (a & Ha & Hres).
    destruct (wf_map _ Hwf' _ _ Ha) as (b & Hb & Hhash).
    apply header_Returned in Hstep as (a' & new & _ & _ & _ & _ & _ & Hcase).
    rewrite Hres, keys_app. f_equal.
    + apply keys_ext. intros l Hl.
      destruct (wf_result _ Hwf _ Hl) as (b0 & Hb0 & _). rewrite Hb0.
      destruct (blameMap st !! headerHash line).
      * destruct Hcase as (_ & -> & _). by rewrite Hb0.
      * destruct Hcase as (_ & -> & _). rewrite lookup_app_l by (by eapply lookup_lt_Some).
        by rewrite Hb0.
    + case_bool_decide; [|reflexivity].
      destruct (iterations _); [|reflexivity].
      rewrite (keys_new _ _ _ _ _ Hb). by rewrite Hhash.
  - rewrite app_nil_r. rewrite step_other in Hstep by done.
    destruct (blameMap st !! currentHash st) as [a|]; [|by injection Hstep as <-].
    destruct (metadata line) as [f|] eqn:Ef; injection Hstep as <-; [|done].
    apply keys_ext. intros l _. simpl.
    destruct (decide (a = info l)) as [->|Hne].
    + rewrite list_lookup_alter_eq. destruct (heap st !! info l); [|done].
      simpl. by rewrite (metadata_hash _ _ _ Ef).
    + by rewrite list_lookup_alter_ne.
Qed.

Lemma keys_run lines : forall st st',
  wf st -> run st lines = Returned st' ->
  keys (heap st') (result st') = keys (heap st) (result st) ++ concat (hunkEntries <$> lines).
Proof.
  induction lines as [|l ls IH]; simpl; intros st st' Hwf H.
  - injection H as <-. by rewrite app_nil_r.
  - apply bind_Returned in H as (st1 & Hs & Hr).
    rewrite (IH _ _ (wf_step _ _ _ Hwf Hs) Hr), (keys_step _ _ _ Hwf Hs).
    by rewrite <- app_assoc.
Qed.

Lemma lineAndHash_parse stdout table :
  parse stdout = Returned table ->
  lineAndHash <$> table = concat (hunkEntries <$> split LF stdout).
Proof.
  intros (st & Hst & ->)%parse_Returned.
  rewrite keys_resolved. apply (keys_run _ initial st wf_initial Hst).
Qed.

(** X1: the table lists, in the order of the stream, the line numbers each
    header line declares, under the hash of that header: nothing else adds,
    removes or reorders entries. *)
Theorem table_lists_declared_ranges (stdout : string) (table : list (BlameLine BlameInfo)) :
  parse stdout = Returned table ->
  lineAndHash <$> table = concat (hunkEntries <$> split LF stdout).
Proof.
  intros (st & Hst & ->)%parse_Returned.
  pose proof (keys_run (split LF stdout) initial st wf_initial Hst) as Hkeys.
  simpl in Hkeys. by rewrite keys_resolved, Hkeys.
Qed.

Lemma table_lists_declared_ranges_witness :
  lineAndHash <$> finalTable stream_with_uncommitted
  = [ (Fin 1, hashA); (Fin 2, hashA); (Fin 4, hashA) ].
Proof.
  apply (table_lists_declared_ranges stream_with_uncommitted).
  vm_compute. reflexivity.
Defined.

(** ** When the loop throws *)

Lemma step_thrown st line :
  match demand line with
  | Some n => MAX_ARRAY_LENGTH < Z.of_nat (length (result st)) + n /\ 0 < n
  | None => True
  end ->
  step st line = Thrown.
Proof.
  unfold demand. destruct (isHeader line) eqn:Hh; simpl.
  - case_bool_decide as Hz; [|intros [_ ?]; lia]. rewrite step_header by done.
    unfold header, pushLines. rewrite bool_decide_eq_true_2 by done.
    destruct (iterations _) as [n|].
    + intros [Hgt Hpos].
      replace (n =? 0) with false by (symmetry; apply Z.eqb_neq; lia).
      replace (Z.of_nat (length (result st)) + n <=? MAX_ARRAY_LENGTH) with false
        by (symmetry; apply Z.leb_gt; lia).
      by destruct (blameMap st !! headerHash line).
    + intros _. by destruct (blameMap st !! headerHash line).
  - intros [_ ?]; lia.
Qed.

Lemma run_thrown lines : forall st,
  Z.of_nat (length (result st)) <= MAX_ARRAY_LENGTH ->
  match totalDemand lines with
  | Some n => MAX_ARRAY_LENGTH < Z.of_nat (length (result st)) + n
  | None => True
  end ->
  run st lines = Thrown.
Proof.
  induction lines as [|l ls IH]; simpl; intros st Hlen H; [lia|].
  destruct (demand l) as [k|] eqn:Ek.
  - pose proof (demand_nonneg _ _ Ek) as Hk.
    destruct (Z_le_gt_dec (Z.of_nat (length (result st)) + k) MAX_ARRAY_LENGTH) as [Hfit|Hover].
    + destruct (step_demand st l k Ek Hfit) as (st1 & -> & Hlen1). simpl.
      apply IH; [lia|]. destruct (totalDemand ls) as [m|] eqn:Em; [|done]. lia.
    + rewrite step_thrown; [done|]. rewrite Ek. lia.
  - rewrite step_thrown; [done|]. by rewrite Ek.
Qed.

(** X2: [parse] throws exactly when the header lines of a hash other than
    the zero hash ask for more than [2^32 - 1] entries in all, or one of
    them has a count that parses to [Infinity]. *)
Theorem parse_throws_iff_over_array_limit (stdout : string) :
  parse stdout = Thrown
  <-> match totalDemand (split LF stdout) with
      | Some n => MAX_ARRAY_LENGTH < n
      | None => True
      end.
Proof.
  split.
  - intros Hthrown. destruct (totalDemand (split LF stdout)) as [n|] eqn:E; [|done].
    destruct (Z_le_gt_dec n MAX_ARRAY_LENGTH) as [Hfit|Hover]; [|lia].
    destruct (run_demand (split LF stdout) initial n E) as (st & Hrun & _); [simpl; lia|].
    unfold parse, parseLines in Hthrown. rewrite Hrun in Hthrown. discriminate.
  - intros H. unfold parse, parseLines. rewrite run_thrown; [done | done |].
    destruct (totalDemand (split LF stdout)) as [n|]; [|done].
    simpl. lia.
Qed.

(** ** Streams without a header line *)

Lemma run_no_header lines :
  Forall (fun l => isHeader l = false) lines -> run initial lines = Returned initial.
Proof.
  induction 1 as [|l ls Hl _ IH]; simpl; [reflexivity|].
  rewrite step_skipped; [done..|]. right. apply lookup_empty.
Qed.

(** X3: a text without any header line, whatever metadata lines it holds,
    parses to the empty table. *)
Theorem no_header_no_entry (stdout : string) :
  Forall (fun l => isHeader l = false) (split LF stdout) ->
  parse stdout = Returned [].
Proof.
  intros H. unfold parse, parseLines. by rewrite run_no_header.
Qed.

Lemma no_header_no_entry_witness :
  parse (unlines [ "author Bob"%string; "author-time 1000"%string;
                   "aaaaaaaaaaaaaaaaaaaaaaaaaaaaaaaaaaaaaaaA 1 1 1"%string ]) = Returned [].
Proof.
  apply no_header_no_entry. vm_compute. repeat constructor.
Defined.

(** ** Commit objects *)

Lemma headerHashes_cons l ls :
  headerHashes (l :: ls) =
  if isHeader l then {[headerHash l]} ∪ headerHashes ls else headerHashes ls.
Proof. unfold headerHashes. simpl. by destruct (isHeader l). Qed.

Lemma objects_step st line st' :
  wf st -> step st line = Returned st' ->
  dom (blameMap st') = dom (blameMap st) ∪ (if isHeader line then {[headerHash line]} else ∅)
  /\ (length (heap st) = size (blameMap st) -> length (heap st') = size (blameMap st')).
Proof.
  intros Hwf Hstep. destruct (isHeader line) eqn:Hh.
  - rewrite step_header in Hstep by done.
    apply header_Returned in Hstep as (a & new & _ & _ & _ & _ & _ & Hcase).
    destruct (blameMap st !! headerHash line) as [a0|] eqn:E.
    + destruct Hcase as (_ & -> & ->). split; [|done].
      apply (elem_of_dom_2 (D := gset string)) in E. set_solver.
    + destruct Hcase as (_ & -> & ->). split.
      * rewrite dom_insert_L. set_solver.
      * intros Hlen. rewrite length_app, map_size_insert_None by done. simpl. lia.
  - rewrite step_other in Hstep by done.
    destruct (blameMap st !! currentHash st) as [a|]; [destruct (metadata line)|];
      injection Hstep as <-; simpl; (split; [set_solver|]); try done.
    by rewrite length_alter.
Qed.

Lemma objects_run lines : forall st st',
  wf st -> run st lines = Returned st' ->
  dom (blameMap st') = dom (blameMap st) ∪ headerHashes lines
  /\ (length (heap st) = size (blameMap st) -> length (heap st') = size (blameMap st')).
Proof.
  induction lines as [|l ls IH]; simpl; intros st st' Hwf H.
  - injection H as <-. split; [|done]. unfold headerHashes. simpl. set_solver.
  - apply bind_Returned in H as (st1 & Hs & Hr).
    destruct (objects_step _ _ _ Hwf Hs) as [Hd1 Hl1].
    destruct (IH _ _ (wf_step _ _ _ Hwf Hs) Hr) as [Hd Hl].
    split; [|auto]. rewrite Hd, Hd1, headerHashes_cons.
    destruct (isHeader l); set_solver.
Qed.

(** X4: when the loop ends there is exactly one commit object for each
    distinct hash opened by a header line of the text (the zero hash
    included, though no entry references it), found under that hash in
    [blameMap], and no other object. *)
Theorem one_commit_per_header_hash (stdout : string) (st : state) :
  parseState stdout = Returned st ->
  dom (blameMap st) = headerHashes (split LF stdout)
  /\ length (heap st) = size (blameMap st)
  /\ (forall h a, blameMap st !! h = Some a ->
        exists b, heap st !! a = Some b /\ hash b = h)
  /\ (forall a b, heap st !! a = Some b -> blameMap st !! hash b = Some a).
Proof.
  intros Hst. pose proof (wf_parseState _ _ Hst) as Hwf.
  destruct (objects_run _ initial st wf_initial Hst) as [Hd Hl].
  split; [|split; [|split]].
  - rewrite Hd. simpl. set_solver.
  - by apply Hl.
  - apply (wf_map _ Hwf).
  - apply (wf_heap _ Hwf).
Qed.

Lemma one_commit_per_header_hash_witness :
  let st := finalState stream_with_uncommitted in
  dom (blameMap st) = headerHashes (split LF stream_with_uncommitted)
  /\ length (heap st) = size (blameMap st)
  /\ (forall h a, blameMap st !! h = Some a ->
        exists b, heap st !! a = Some b /\ hash b = h)
  /\ (forall a b, heap st !! a = Some b -> blameMap st !! hash b = Some a).
Proof.
  apply (one_commit_per_header_hash stream_with_uncommitted).
  vm_compute. reflexivity.
Defined.

(** X5: a header line of a hash other than the zero hash, with a line
    number [a] and a count [c] that are integers small enough for the sums
    to be exact, appends the [c] entries of lines [a], [a + 1], ...,
    [a + c - 1], in this order, all referencing the object of its hash. *)
Theorem header_pushes_consecutive_lines (st : state) (line : string) (a c : Z) :
  isHeader line = true ->
  headerHash line <> ZERO_HASH ->
  parseIntArg (split " " line !! 2%nat) = Fin a ->
  parseIntArg (split " " line !! 3%nat) = Fin c ->
  0 <= c ->
  Z.abs a + c < 2 ^ 53 ->
  Z.of_nat (length (result st)) + c <= MAX_ARRAY_LENGTH ->
  exists st' o,
    step st line = Returned st'
    /\ blameMap st' !! headerHash line = Some o
    /\ result st' = result st ++ ((fun j => mkBlameLine (Fin (a + j)) o) <$> seqZ 0 c).
Proof.
  intros Hh Hz Ha Hc Hc0 Hsafe Hfit.
  destruct (step_demand st line c) as (st' & Hstep & _); [|done|].
  { unfold demand. rewrite Hh, bool_decide_eq_true_2 by done. simpl.
    rewrite Hc. simpl. f_equal. lia. }
  exists st'. pose proof Hstep as Hstep'. rewrite step_header in Hstep' by done.
  destruct (header_result _ _ _ _ Hstep') as (o & Ho & Hres).
  exists o. split; [done|]. split; [done|].
  rewrite Hres, bool_decide_eq_true_2, Ha, Hc by done. simpl.
  rewrite Z.max_r by done. f_equal.
  apply list_fmap_ext. intros i j Hj. f_equal.
  apply lookup_seqZ in Hj as [-> Hi]. simpl. apply toDouble_small. lia.
Qed.

Lemma header_pushes_consecutive_lines_witness :
  exists st' o,
    step initial (hashA ++ " 7 10 3")%string = Returned st'
    /\ blameMap st' !! hashA = Some o
    /\ result st' = [ mkBlameLine (Fin 10) o; mkBlameLine (Fin 11) o; mkBlameLine (Fin 12) o ].
Proof.
  apply (header_pushes_consecutive_lines initial (hashA ++ " 7 10 3")%string 10 3);
    vm_compute; first [reflexivity | discriminate].
Defined.

(** X6: what a line leaves alone.  A header line changes no field of any
    existing commit object, so a hash opened again keeps what the metadata
    lines gave it; a line that is not a header changes neither [result],
    [blameMap] nor [currentHash], keeps every object of another hash than
    the current one, and never changes the hash of an object. *)
Theorem lines_leave_other_commits_alone (st st' : state) (line : string) :
  wf st ->
  step st line = Returned st' ->
  (isHeader line = true ->
     forall a b, heap st !! a = Some b -> heap st' !! a = Some b)
  /\ (isHeader line = false ->
        result st' = result st
        /\ blameMap st' = blameMap st
        /\ currentHash st' = currentHash st
        /\ (forall a b, heap st !! a = Some b ->
              exists b', heap st' !! a = Some b' /\ hash b' = hash b
                         /\ (hash b <> currentHash st -> b' = b))).
Proof.
  intros Hwf Hstep. split; intros Hh.
  - rewrite step_header in Hstep by done.
    apply header_Returned in Hstep as (o & new & _ & _ & _ & _ & _ & Hcase).
    intros a b Hab. destruct (blameMap st !! headerHash line).
    + by destruct Hcase as (_ & -> & _).
    + destruct Hcase as (_ & -> & _). rewrite lookup_app_l; [done|].
      by eapply lookup_lt_Some.
  - rewrite step_other in Hstep by done.
    destruct (blameMap st !! currentHash st) as [o|] eqn:Eo;
      [destruct (metadata line) as [f|] eqn:Ef|]; injection Hstep as <-;
      (split; [done|]); (split; [done|]); (split; [done|]); try (by eauto).
    intros a b Hab. simpl. destruct (decide (o = a)) as [->|Hne].
    + exists (f b). rewrite list_lookup_alter_eq, Hab. simpl.
      split; [done|]. split; [by eapply metadata_hash|].
      intros Hcur. destruct (wf_map _ Hwf _ _ Eo) as (b0 & Hb0 & Hh0). congruence.
    + exists b. by rewrite list_lookup_alter_ne.
Qed.

Lemma lines_leave_other_commits_alone_witness :
  let st := stateAfter [ (hashA ++ " 1 1 1")%string; "author Bob"%string ] in
  let st' := stateAfter [ (hashA ++ " 1 1 1")%string; "author Bob"%string;
                          (hashA ++ " 5 5 1")%string ] in
  (isHeader (hashA ++ " 5 5 1") = true ->
     forall a b, heap st !! a = Some b -> heap st' !! a = Some b)
  /\ (isHeader (hashA ++ " 5 5 1") = false ->
        result st' = result st
        /\ blameMap st' = blameMap st
        /\ currentHash st' = currentHash st
        /\ (forall a b, heap st !! a = Some b ->
              exists b', heap st' !! a = Some b' /\ hash b' = hash b
                         /\ (hash b <> currentHash st -> b' = b))).
Proof.
  apply (lines_leave_other_commits_alone
           (stateAfter [ (hashA ++ " 1 1 1")%string; "author Bob"%string ])
           (stateAfter [ (hashA ++ " 1 1 1")%string; "author Bob"%string;
                         (hashA ++ " 5 5 1")%string ])
           (hashA ++ " 5 5 1")%string).
  - apply (wf_run [ (hashA ++ " 1 1 1")%string; "author Bob"%string ] initial);
      [apply wf_initial | vm_compute; reflexivity].
  - vm_compute. reflexivity.
Defined.

(** ** Order of the age ratios *)

Lemma ageRatio_exact mn mx t :
  mn <= t <= mx -> mn < mx -> mx - mn < 2 ^ 53 ->
  ageRatio (Fin mn) (Fin mx) (Fin t) = Ratio (Qred ((mx - t) # Z.to_pos (mx - mn))).
Proof.
  intros Ht Hlt Hspan. unfold ageRatio, strictNe.
  rewrite !bool_decide_eq_false_2 by (intros [=]; lia). cbn [negb andb].
  unfold sub. cbn [neg add].
  rewrite !toDouble_small by lia. unfold div.
  destruct (Z.eqb_spec (mx + - mn) 0); [lia|].
  rewrite Z.sgn_pos, Z.abs_eq, Z.mul_1_r by lia.
  by replace (mx + - t) with (mx - t) by lia; replace (mx + - mn) with (mx - mn) by lia.
Qed.

Lemma timeRange_Fin_bounds table mn mx l t :
  timeRange table = (Fin mn, Fin mx) -> l ∈ table -> time (info l) = Fin t ->
  mn <= t <= mx.
Proof.
  intros Hrange Hl Ht.
  destruct (range_bounds table (Infinity false) (Infinity true) (Fin mn) (Fin mx))
    as (_ & _ & Hb); [done..|].
  destruct (Hb _ Hl) as [Hlo Hhi]. rewrite Ht in Hlo, Hhi.
  unfold gt, lt in *. apply Z.ltb_ge in Hlo, Hhi. lia.
Qed.

Lemma ageRatio_unit mn mx t :
  mn <= t <= mx -> mx - mn < 2 ^ 53 ->
  exists q, ageRatio (Fin mn) (Fin mx) (Fin t) = Ratio q /\ (0 <= q)%Q /\ (q <= 1)%Q.
Proof.
  intros Ht Hspan. destruct (Z.eq_dec mn mx) as [->|Hne].
  - exists (0 # 1). rewrite ageRatio_single by done. by vm_compute.
  - rewrite ageRatio_exact by lia. eexists. split; [done|].
    rewrite !Qred_correct. split; unfold Qle; simpl; rewrite ?Z2Pos.id by lia; lia.
Qed.

Lemma rendered_time table mn mx l :
  timeRange table = (Fin mn, Fin mx) -> l ∈ table ->
  gt (time (info l)) (Fin 0) = true ->
  exists t, time (info l) = Fin t /\ mn <= t <= mx /\ 0 < t.
Proof.
  intros Hrange Hl Hpos.
  destruct (range_bounds table (Infinity false) (Infinity true) (Fin mn) (Fin mx))
    as (_ & _ & Hb); [done..|].
  destruct (Hb _ Hl) as [Hlo Hhi]. unfold gt, lt in *.
  destruct (time (info l)) as [|[]|t]; try discriminate.
  exists t. apply Z.ltb_ge in Hlo, Hhi. apply Z.ltb_lt in Hpos. split; [done | lia].
Qed.

(** ** Theme *)

(** X8: the theme changes colours only: under the dark and the light theme
    every line gets the same text on the same line, and the placeholder
    under one exactly when under the other. *)
Theorem theme_changes_colours_only (tz : Z -> Z) (n : nat)
    (table : list (BlameLine BlameInfo)) :
  contentText <$> applyDecorations tz true n table
    = contentText <$> applyDecorations tz false n table
  /\ rangeLine <$> applyDecorations tz true n table
     = rangeLine <$> applyDecorations tz false n table
  /\ forall i, applyDecorations tz true n table !! i = Some (placeholder i)
               <-> applyDecorations tz false n table !! i = Some (placeholder i).
Proof.
  unfold applyDecorations. destruct (timeRange table) as [mn mx].
  assert (H : forall i, let d := decorate tz true mn mx (lineToBlame table) i in
                        let d' := decorate tz false mn mx (lineToBlame table) i in
                        contentText d = contentText d' /\ rangeLine d = rangeLine d'
                        /\ (d = placeholder i <-> d' = placeholder i)).
  { intros i. unfold decorate.
    destruct (lineToBlame table !! Fin (Z.of_nat i)) as [b|]; [|done].
    destruct (gt (time b) (Fin 0)); [|done]. simpl. repeat split; discriminate. }
  split; [|split].
  - rewrite <- !list_fmap_compose. apply list_fmap_ext. intros _ i _. apply H.
  - rewrite <- !list_fmap_compose. apply list_fmap_ext. intros _ i _. apply H.
  - intros i. rewrite !list_lookup_fmap.
    destruct (seq 0 n !! i) as [j|] eqn:E; simpl; [|done].
    apply lookup_seq in E as [-> _]. simpl.
    split; intros [= Hd]; f_equal; by apply H.
Qed.

(** ** From the stream to the gutter *)

(** X9: a line of the document that no header line of a hash other than
    the zero hash declares gets the placeholder, whatever else the stream
    holds: so do the lines git reports as not committed yet. *)
Theorem undeclared_lines_get_the_placeholder (tz : Z -> Z) (dark : bool) (n : nat)
    (stdout : string) (table : list (BlameLine BlameInfo)) (i : nat) :
  parse stdout = Returned table ->
  (i < n)%nat ->
  Z.of_nat n < 2 ^ 53 ->
  Fin (Z.of_nat i + 1) ∉ (fst <$> concat (hunkEntries <$> split LF stdout)) ->
  applyDecorations tz dark n table !! i = Some (placeholder i).
Proof.
  intros Hparse Hi Hn Hnot.
  rewrite applyDecorations_lookup by done. f_equal.
  apply decorate_placeholder. left.
  rewrite lineToBlame_line by lia.
  destruct (last _) as [l|] eqn:E; [exfalso|done].
  apply last_Some_elem_of, list_elem_of_In, List.filter_In in E as [Hin Hline].
  apply bool_decide_eq_true in Hline. apply Hnot.
  rewrite <- (lineAndHash_parse _ _ Hparse), <- list_fmap_compose.
  apply list_elem_of_fmap. exists l. split; [by rewrite <- Hline|].
  by apply list_elem_of_In.
Qed.

Lemma undeclared_lines_get_the_placeholder_witness :
  applyDecorations UTC true 4 (finalTable stream_with_uncommitted) !! 2%nat
  = Some (placeholder 2).
Proof.
  apply (undeclared_lines_get_the_placeholder UTC true 4 stream_with_uncommitted
           (finalTable stream_with_uncommitted) 2);
    [vm_compute; reflexivity | lia | vm_compute; reflexivity |].
  vm_compute. intros H. repeat (apply elem_of_cons in H as [H|H]; [discriminate H|]).
  by apply not_elem_of_nil in H.
Defined.

(** ** The controller *)

Lemma applyDecorations_nil tz dark n :
  applyDecorations tz dark n [] = placeholder <$> seq 0 n.
Proof.
  unfold applyDecorations. simpl. apply list_fmap_ext. intros _ i _.
  apply decorate_placeholder. left. apply lookup_empty.
Qed.

Lemma debounced_pending h :
  debounced h ->
  match updateTimeout (gutter h) with
  | Some t => pending h = ∅ \/ exists e, pending h = {[t := e]}
  | None => pending h = ∅
  end.
Proof.
  intros (Hp & _ & _). destruct (updateTimeout (gutter h)) as [t|] eqn:Et.
  - destruct (pending h !! t) as [e|] eqn:Ee.
    + right. exists e. apply map_eq. intros t'.
      destruct (decide (t = t')) as [<-|Hne].
      * by rewrite lookup_singleton_eq.
      * rewrite lookup_singleton_ne by done.
        destruct (pending h !! t') as [e'|] eqn:E'; [|done].
        apply Hp in E'. congruence.
    + left. apply map_empty. intros t'.
      destruct (pending h !! t') as [e'|] eqn:E'; [|done].
      pose proof (Hp _ _ E'). congruence.
  - apply map_empty. intros t'.
    destruct (pending h !! t') as [e'|] eqn:E'; [|done].
    apply Hp in E'. congruence.
Qed.

Lemma debounced_update h e :
  debounced h ->
  debounced (hostUpdate h (Some e))
  /\ (enabled (gutter h) = true -> pending (hostUpdate h (Some e)) = {[nextTimer h := e]})
  /\ (enabled (gutter h) = false -> hostUpdate h (Some e) = mkHost (gutter h) (pending h) (S (nextTimer h))).
Proof.
  intros Hd. pose proof (debounced_pending h Hd) as Hpend.
  destruct Hd as (Hp & Ht & Hlt).
  unfold hostUpdate, update. destruct (enabled (gutter h)) eqn:En; simpl.
  - assert (Hnew : foldl perform (pending h)
                     (match updateTimeout (gutter h) with
                      | Some t => [ClearTimeout t]
                      | None => []
                      end ++ [SetTimeout (nextTimer h) e DEBOUNCE_DELAY_MS])
                   = {[nextTimer h := e]}).
    { destruct (updateTimeout (gutter h)) as [t|]; simpl.
      - destruct Hpend as [-> | [e0 ->]].
        + by rewrite delete_empty, insert_empty.
        + by rewrite delete_singleton_eq, insert_empty.
      - by rewrite Hpend, insert_empty. }
    rewrite Hnew. split; [|split; [done|discriminate]].
    split; [|split]; simpl.
    + intros t e0 [<- <-]%lookup_singleton_Some. done.
    + intros t [= <-]. lia.
    + intros t e0 [<- <-]%lookup_singleton_Some. lia.
  - split; [|split; [discriminate|done]].
    split; [|split]; simpl; [done| |].
    + intros t Ht'. apply Ht in Ht'. lia.
    + intros t e0 Hte. apply Hlt in Hte. lia.
Qed.

Lemma debounced_hostUpdate h e : debounced h -> debounced (hostUpdate h e).
Proof.
  intros Hd. destruct e as [e|]; [by apply debounced_update | done].
Qed.

Lemma debounced_handle tz h ev : debounced h -> debounced (handle tz h ev).
Proof.
  intros Hd. destruct ev as [active visible|e|active same|active same|kind active|t|e v doc s];
    simpl.
  - (* toggle *)
    unfold toggle. destruct (enabled (gutter h)) eqn:En; simpl.
    + (* now disabled *)
      destruct Hd as (Hp & Ht & Hlt).
      assert (Hclear : forall p, foldl perform p
                (clearDecorations visible ++
                 [SetStatusBarMessage "Git Blame Gutter: Disabled" STATUS_BAR_DURATION_MS]) = p).
      { intros p. rewrite foldl_app. simpl. unfold clearDecorations.
        induction visible as [|x xs IH]; simpl; [done | apply IH]. }
      rewrite Hclear. split; [|split]; simpl; [done| |].
      * intros t Ht'. apply Ht in Ht'. lia.
      * intros t e Hte. apply Hlt in Hte. lia.
    + (* now enabled *)
      destruct active as [e|]; simpl.
      * pose proof (debounced_update
                      (mkHost (mkGitBlameGutter true (updateTimeout (gutter h))
                                 (blameCache (gutter h)) (isDarkTheme (gutter h)))
                              (pending h) (nextTimer h)) e) as Hu.
        destruct Hu as (Hd' & _ & _); [exact Hd|].
        unfold hostUpdate, update in Hd'. simpl in Hd'.
        rewrite foldl_app. simpl. exact Hd'.
      * destruct Hd as (Hp & Ht & Hlt). split; [|split]; simpl; [done| |].
        -- intros t Ht'. apply Ht in Ht'. lia.
        -- intros t e Hte. apply Hlt in Hte. lia.
  - by apply debounced_hostUpdate.
  - destruct same; [by apply debounced_hostUpdate | done].
  - destruct same; [by apply debounced_hostUpdate | done].
  - apply debounced_hostUpdate. exact Hd.
  - destruct Hd as (Hp & Ht & Hlt). split; [|split]; simpl; [|done|].
    + intros t' e [_ Hte]%lookup_delete_Some. eauto.
    + intros t' e [_ Hte]%lookup_delete_Some. eauto.
  - destruct Hd as (Hp & Ht & Hlt).
    assert (Hsame : updateTimeout (fst (doUpdateFinish tz (gutter h) e v doc s))
                    = updateTimeout (gutter h)).
    { unfold doUpdateFinish. destruct s; [destruct (negb _)|..]; reflexivity. }
    split; [|split]; simpl; rewrite ?Hsame; done.
Qed.

Lemma debounced_activate kind active : debounced (activate kind active).
Proof.
  apply debounced_hostUpdate. split; [|split]; simpl.
  - intros t e H. by rewrite lookup_empty in H.
  - discriminate.
  - intros t e H. by rewrite lookup_empty in H.
Qed.

(** X10: refreshes are coalesced.  Whatever events follow [activate], at
    most one timer of [update] is pending, and it is the one whose handle
    the controller holds; an [update] made while the gutter is enabled
    leaves exactly its own timer pending, for its own editor, one made
    while it is disabled changes nothing, and [dispose] leaves no timer
    pending. *)
Theorem at_most_one_refresh_is_pending (tz : Z -> Z) (kind : ColorThemeKind)
    (active : option editor) (events : list event) :
  let h := foldl (handle tz) (activate kind active) events in
  (size (pending h) <= 1)%nat
  /\ (forall t e, pending h !! t = Some e -> updateTimeout (gutter h) = Some t)
  /\ (forall e, enabled (gutter h) = true ->
        pending (hostUpdate h (Some e)) = {[nextTimer h := e]})
  /\ (forall e, enabled (gutter h) = false ->
        gutter (hostUpdate h (Some e)) = gutter h
        /\ pending (hostUpdate h (Some e)) = pending h)
  /\ foldl perform (pending h) (dispose (gutter h)) = ∅.
Proof.
  intros h.
  assert (Hd : debounced h).
  { subst h. generalize (debounced_activate kind active).
    generalize (activate kind active). induction events as [|ev evs IH]; simpl; [done|].
    intros h0 Hh0. apply IH. by apply debounced_handle. }
  split; [|split; [|split; [|split]]].
  - pose proof (debounced_pending h Hd) as Hp.
    destruct (updateTimeout (gutter h)).
    + destruct Hp as [-> | [e ->]]; [rewrite map_size_empty | rewrite map_size_singleton]; lia.
    + rewrite Hp, map_size_empty. lia.
  - apply Hd.
  - intros e. by apply debounced_update.
  - intros e He. destruct (debounced_update h e Hd) as (_ & _ & Hoff).
    rewrite (Hoff He). done.
  - pose proof (debounced_pending h Hd) as Hp. unfold dispose.
    destruct (updateTimeout (gutter h)) as [t|]; simpl; [|done].
    destruct Hp as [-> | [e ->]]; [apply delete_empty | apply delete_singleton_eq].
Qed.

(** X11: toggling the gutter off empties the decorations of the visible
    editors and shows the status message, but cancels no timer and keeps
    the handle; and [doUpdate] does not read the [enabled] flag, so a
    refresh scheduled before still sets the decorations it computes. *)
Theorem toggle_off_cancels_no_refresh (tz : Z -> Z) (g : GitBlameGutter)
    (active : option editor) (visible : list editor) (fresh : timer) :
  enabled g = true ->
  let g' := fst (toggle g active visible fresh) in
  toggle g active visible fresh
    = (mkGitBlameGutter false (updateTimeout g) (blameCache g) (isDarkTheme g),
       ((fun e => SetDecorations e []) <$> visible)
       ++ [SetStatusBarMessage "Git Blame Gutter: Disabled" STATUS_BAR_DURATION_MS])
  /\ (forall p, foldl perform p (snd (toggle g active visible fresh)) = p)
  /\ (forall e v doc s,
        snd (doUpdateFinish tz g' e v doc s) = snd (doUpdateFinish tz g e v doc s)).
Proof.
  intros En g'. subst g'. unfold toggle. rewrite En. simpl.
  split; [done|]. split.
  - intros p. rewrite foldl_app. simpl. unfold clearDecorations.
    induction visible as [|x xs IH]; simpl; [done | apply IH].
  - intros e v doc s. unfold doUpdateFinish.
    destruct s; [destruct (negb _)|..]; reflexivity.
Qed.

Lemma toggle_off_cancels_no_refresh_witness :
  let g := mkGitBlameGutter true (Some 4%nat) ∅ true in
  toggle g (Some 1%nat) [1%nat; 2%nat] 5%nat
    = (mkGitBlameGutter false (Some 4%nat) ∅ true,
       [ SetDecorations 1%nat []; SetDecorations 2%nat [];
         SetStatusBarMessage "Git Blame Gutter: Disabled" 2000 ])
  /\ (forall p, foldl perform p (snd (toggle g (Some 1%nat) [1%nat; 2%nat] 5%nat)) = p)
  /\ (forall e v doc s,
        snd (doUpdateFinish UTC (fst (toggle g (Some 1%nat) [1%nat; 2%nat] 5%nat)) e v doc s)
        = snd (doUpdateFinish UTC g e v doc s)).
Proof.
  apply (toggle_off_cancels_no_refresh UTC (mkGitBlameGutter true (Some 4%nat) ∅ true)
           (Some 1%nat) [1%nat; 2%nat] 5%nat).
  reflexivity.
Defined.

(** X12: how a refresh ends.  A result for another version of the document
    than the one blamed, or a promise that never settles because the
    parser threw, changes nothing and decorates nothing.  Otherwise the
    editor gets one decoration per line of the document: after a failure
    of git all of them are placeholders and the file has no entry in the
    cache; after a success they are those of the table, which the cache
    holds under the path of the file. *)
Theorem refresh_outcomes (tz : Z -> Z) (g : GitBlameGutter) (e : editor)
    (currentVersion : Z) (doc : TextDocument) (error : bool) (stdout : string) :
  let s := getBlameInfo error stdout in
  let '(g', calls) := doUpdateFinish tz g e currentVersion doc s in
  (error = false -> parse stdout = Thrown -> g' = g /\ calls = [])
  /\ (error = false -> version doc <> currentVersion -> g' = g /\ calls = [])
  /\ (error = true ->
        calls = [SetDecorations e (placeholder <$> seq 0 (lineCount doc))]
        /\ blameCache g' !! fsPath doc = None)
  /\ (forall table, error = false -> parse stdout = Returned table ->
        version doc = currentVersion ->
        calls = [SetDecorations e (applyDecorations tz (isDarkTheme g) (lineCount doc) table)]
        /\ length (applyDecorations tz (isDarkTheme g) (lineCount doc) table) = lineCount doc
        /\ blameCache g' !! fsPath doc = Some table)
  /\ enabled g' = enabled g /\ updateTimeout g' = updateTimeout g
  /\ isDarkTheme g' = isDarkTheme g
  /\ (forall p, p <> fsPath doc -> blameCache g' !! p = blameCache g !! p).
Proof.
  unfold getBlameInfo, doUpdateFinish. destruct error.
  - unfold applyDecorationsTo. simpl. rewrite applyDecorations_nil.
    split; [discriminate|]. split; [discriminate|].
    split; [intros _; split; [done | apply lookup_delete_eq]|].
    split; [discriminate|]. repeat (split; [done|]).
    intros p Hp. by apply lookup_delete_ne.
  - destruct (parse stdout) as [table|] eqn:E.
    + destruct (Z.eqb_spec (version doc) currentVersion) as [Hv|Hv]; simpl.
      * unfold applyDecorationsTo. simpl.
        split; [discriminate|]. split; [done|]. split; [discriminate|].
        split; [|repeat (split; [done|]); intros p Hp; by apply lookup_insert_ne].
        intros t _ [= <-] _. split; [done|].
        split; [apply applyDecorations_length | apply lookup_insert_eq].
      * split; [discriminate|]. split; [done|]. split; [discriminate|].
        split; [done|]. done.
    + split; [done|]. split; [done|]. split; [discriminate|].
      split; [discriminate|]. done.
Qed.

(** X13: the cache is never read: two controllers that differ only in
    [blameCache] make the same calls in [update], [toggle], [dispose] and
    [doUpdate], and still differ only in [blameCache] afterwards. *)
Theorem cache_is_never_read (tz : Z -> Z) (g g' : GitBlameGutter) :
  sameButCache g g' ->
  (forall e fresh,
     snd (update g e fresh) = snd (update g' e fresh)
     /\ sameButCache (fst (update g e fresh)) (fst (update g' e fresh)))
  /\ (forall active visible fresh,
        snd (toggle g active visible fresh) = snd (toggle g' active visible fresh)
        /\ sameButCache (fst (toggle g active visible fresh))
                        (fst (toggle g' active visible fresh)))
  /\ dispose g = dispose g'
  /\ (forall e v doc s,
        snd (doUpdateFinish tz g e v doc s) = snd (doUpdateFinish tz g' e v doc s)
        /\ sameButCache (fst (doUpdateFinish tz g e v doc s))
                        (fst (doUpdateFinish tz g' e v doc s))).
Proof.
  destruct g as [en t c dk], g' as [en' t' c' dk']. unfold sameButCache. simpl.
  intros (<- & <- & <-). split; [|split; [|split]].
  - intros e fresh. unfold update. simpl. destruct en; simpl; repeat split.
  - intros active visible fresh. unfold toggle, update. simpl.
    destruct en; simpl; [repeat split|]. destruct active; simpl; repeat split.
  - reflexivity.
  - intros e v doc s. unfold doUpdateFinish, applyDecorationsTo. simpl.
    destruct s; [destruct (negb _)|..]; simpl; repeat split.
Qed.

Lemma cache_is_never_read_witness :
  let g := mkGitBlameGutter true (Some 3%nat) ∅ false in
  let g' := mkGitBlameGutter true (Some 3%nat) {[ "/f.txt"%string := table_before_epoch ]} false in
  (forall e fresh,
     snd (update g e fresh) = snd (update g' e fresh)
     /\ sameButCache (fst (update g e fresh)) (fst (update g' e fresh)))
  /\ (forall active visible fresh,
        snd (toggle g active visible fresh) = snd (toggle g' active visible fresh)
        /\ sameButCache (fst (toggle g active visible fresh))
                        (fst (toggle g' active visible fresh)))
  /\ dispose g = dispose g'
  /\ (forall e v doc s,
        snd (doUpdateFinish UTC g e v doc s) = snd (doUpdateFinish UTC g' e v doc s)
        /\ sameButCache (fst (doUpdateFinish UTC g e v doc s))
                        (fst (doUpdateFinish UTC g' e v doc s))).
Proof.
  apply (cache_is_never_read UTC).
  unfold sameButCache. simpl. repeat split.
Defined.

(** ** Order of the entries *)

Ltac order_cases :=
  unfold lt; simpl;
  repeat match goal with
         | |- context [?a <? ?b] => destruct (Z.ltb_spec a b); simpl
         end;
  try reflexivity; try (f_equal; lia).

Lemma lower_comm ta tb m :
  (if lt tb (if lt ta m then ta else m) then tb else if lt ta m then ta else m)
  = (if lt ta (if lt tb m then tb else m) then ta else if lt tb m then tb else m).
Proof. destruct ta as [|[]|x], tb as [|[]|y], m as [|[]|z]; order_cases. Qed.

Lemma raise_comm ta tb m :
  (if lt (if lt m ta then ta else m) tb then tb else if lt m ta then ta else m)
  = (if lt (if lt m tb then tb else m) ta then ta else if lt m tb then tb else m).
Proof. destruct ta as [|[]|x], tb as [|[]|y], m as [|[]|z]; order_cases. Qed.

Lemma updateRange_comm r a b :
  updateRange (updateRange r a) b = updateRange (updateRange r b) a.
Proof.
  destruct r as [mn mx]. unfold updateRange, gt.
  f_equal; [apply lower_comm | apply raise_comm].
Qed.

Lemma foldl_updateRange_perm (t t' : list (BlameLine BlameInfo)) :
  t ≡ₚ t' -> forall r, foldl updateRange r t = foldl updateRange r t'.
Proof.
  induction 1 as [|x l l' _ IH|x y l|l l' l'' _ IH1 _ IH2]; intros r; simpl.
  - reflexivity.
  - apply IH.
  - by rewrite updateRange_comm.
  - by rewrite IH1.
Qed.

Lemma filter_perm {A} (f : A -> bool) (l l' : list A) :
  l ≡ₚ l' -> List.filter f l ≡ₚ List.filter f l'.
Proof.
  induction 1 as [|x l l' _ IH|x y l|l l' l'' _ IH1 _ IH2]; simpl.
  - reflexivity.
  - destruct (f x); [by constructor | done].
  - destruct (f x), (f y); try reflexivity. apply perm_swap.
  - by etrans.
Qed.

Lemma filter_key_unique (t : list (BlameLine BlameInfo)) k :
  NoDup ((fun l => sub (line l) (Fin 1)) <$> t) ->
  (length (List.filter (fun l => bool_decide (sub (line l) (Fin 1) = k)) t) <= 1)%nat.
Proof.
  induction t as [|x xs IH]; simpl; [lia|].
  intros [Hx Hxs]%NoDup_cons. case_bool_decide as Hk; [|by apply IH].
  simpl. cut (List.filter (fun l => bool_decide (sub (line l) (Fin 1) = k)) xs = []).
  { intros ->. simpl. lia. }
  destruct (List.filter _ xs) as [|y ys] eqn:E; [done|]. exfalso. apply Hx.
  assert (Hy : In y (List.filter (fun l => bool_decide (sub (line l) (Fin 1) = k)) xs))
    by (rewrite E; by left).
  apply List.filter_In in Hy as [Hin Hyk]. apply bool_decide_eq_true in Hyk.
  apply list_elem_of_fmap. exists y. split; [congruence | by apply list_elem_of_In].
Qed.

Lemma lineToBlame_perm (t t' : list (BlameLine BlameInfo)) :
  NoDup ((fun l => sub (line l) (Fin 1)) <$> t) -> t ≡ₚ t' ->
  lineToBlame t = lineToBlame t'.
Proof.
  intros Hnd Hperm. apply map_eq. intros k. rewrite !lineToBlame_lookup.
  pose proof (filter_key_unique t k Hnd) as Hlen.
  pose proof (filter_perm (fun l => bool_decide (sub (line l) (Fin 1) = k)) t t' Hperm) as Hf.
  destruct (List.filter _ t) as [|x [|y ys]]; simpl in Hlen; [| |lia].
  - apply Permutation_nil_l in Hf. by rewrite Hf.
  - apply Permutation_singleton_l in Hf. by rewrite Hf.
Qed.

(** X14: the decorations do not depend on the order in which the entries
    come (git reports the hunks of an incremental blame in no fixed order),
    as long as no two entries carry the same line. *)
Theorem decorations_do_not_depend_on_hunk_order (tz : Z -> Z) (dark : bool) (n : nat)
    (table table' : list (BlameLine BlameInfo)) :
  NoDup ((fun l => sub (line l) (Fin 1)) <$> table) ->
  table ≡ₚ table' ->
  applyDecorations tz dark n table = applyDecorations tz dark n table'.
Proof.
  intros Hnd Hperm. unfold applyDecorations, timeRange.
  rewrite (foldl_updateRange_perm _ _ Hperm), (lineToBlame_perm _ _ Hnd Hperm). done.
Qed.

Lemma decorations_do_not_depend_on_hunk_order_witness :
  applyDecorations UTC true 3 table_with_unset_time
  = applyDecorations UTC true 3 (reverse table_with_unset_time).
Proof.
  apply (decorations_do_not_depend_on_hunk_order UTC true 3 table_with_unset_time
           (reverse table_with_unset_time)).
  - vm_compute. repeat constructor; set_solver.
  - symmetry. apply reverse_Permutation.
Defined.

(** ** Colours *)

Lemma roundHalfEven_between n d k1 k2 :
  k1 * Zpos d <= n <= k2 * Zpos d -> k1 <= roundHalfEven n d <= k2.
Proof.
  intros [H1 H2]. unfold roundHalfEven.
  pose proof (Z.div_mod n (Zpos d) ltac:(lia)) as Hdm.
  pose proof (Z.mod_pos_bound n (Zpos d) ltac:(lia)) as Hr.
  set (fl := n / Zpos d) in *. set (r := n mod Zpos d) in *.
  assert (Hlo : k1 <= fl) by (apply Z.div_le_lower_bound; lia).
  assert (Hhi : fl <= k2) by nia.
  assert (Hup : 0 < r -> fl + 1 <= k2) by nia.
  destruct (Z.ltb_spec (2 * r) (Zpos d)); [lia|].
  destruct (Z.ltb_spec (Zpos d) (2 * r)); [lia|].
  destruct (Z.even fl); lia.
Qed.

Lemma log2Q_below n d : Zpos n < 2 ^ 53 * Zpos d -> log2Q n d <= 52.
Proof.
  intros H. unfold log2Q. set (c := Z.log2 (Zpos n) - Z.log2 (Zpos d)).
  assert (Hc : c <= 53).
  { assert (Z.log2 (Zpos n) <= Z.log2 (2 ^ 53 * Zpos d)) by (apply Z.log2_le_mono; lia).
    rewrite Z.mul_comm, Z.log2_mul_pow2 in H0 by lia. lia. }
  destruct (Z.leb_spec 0 c) as [H0|H0].
  - destruct (Z.leb_spec (Zpos d * 2 ^ c) (Zpos n)) as [Hge|Hlt]; [|lia].
    destruct (Z.eq_dec c 53) as [->|]; [nia | lia].
  - destruct (_ <=? _); lia.
Qed.

Lemma magnitude64_between n d lo hi :
  0 <= lo -> hi < 2 ^ 53 ->
  lo * Zpos d <= Zpos n <= hi * Zpos d ->
  exists v, magnitude64 n d = Some v /\ (inject_Z lo <= v)%Q /\ (v <= inject_Z hi)%Q.
Proof.
  intros Hlo Hhi [H1 H2]. unfold magnitude64.
  assert (HL : log2Q n d <= 52) by (apply log2Q_below; nia).
  set (e := Z.max (log2Q n d - 52) (-1074)). assert (He : e <= 0) by lia.
  destruct (Z.leb_spec 0 e) as [He0|He0].
  - assert (e = 0) as -> by lia.
    rewrite Z.pow_0_r, Z.mul_1_r. change (Z.to_pos 1) with 1%positive.
    rewrite Pos.mul_1_r.
    pose proof (roundHalfEven_between (Zpos n) d lo hi ltac:(lia)) as Hm.
    destruct (Z.leb_spec (2 ^ 1024) (roundHalfEven (Zpos n) d)) as [Hov|_].
    { assert (2 ^ 53 < 2 ^ 1024) by (apply Z.pow_lt_mono_r; lia). lia. }
    eexists. split; [reflexivity|]. rewrite !Qred_correct.
    unfold Qle, inject_Z. simpl. lia.
  - set (p := 2 ^ (- e)). assert (Hp : 0 < p) by (apply Z.pow_pos_nonneg; lia).
    pose proof (roundHalfEven_between (Zpos n * p) d (lo * p) (hi * p) ltac:(nia)) as Hm.
    eexists. split; [reflexivity|]. rewrite !Qred_correct.
    unfold Qle, inject_Z. simpl. rewrite Z2Pos.id by lia. lia.
Qed.

Lemma toBinary64_between q lo hi :
  0 <= lo -> hi < 2 ^ 53 ->
  (inject_Z lo <= q)%Q -> (q <= inject_Z hi)%Q ->
  exists v, toBinary64 q = Ratio v /\ (inject_Z lo <= v)%Q /\ (v <= inject_Z hi)%Q.
Proof.
  intros Hlo Hhi H1 H2. destruct q as [qn qd]. unfold toBinary64, Qle, inject_Z in *.
  simpl in *. destruct qn as [|n|n].
  - exists (0 # 1). split; [done|]. unfold Qle. simpl. lia.
  - destruct (magnitude64_between n qd lo hi) as (v & -> & Hv); [lia..|]. eauto.
  - lia.
Qed.

Lemma mathRound_between v lo hi :
  (inject_Z lo <= v)%Q -> (v <= inject_Z hi)%Q ->
  exists z, mathRound (Ratio v) = Fin z /\ lo <= z <= hi.
Proof.
  intros H1 H2. eexists. split; [reflexivity|].
  unfold floorQ. destruct v as [vn vd]. unfold Qle, inject_Z in *. simpl in *.
  split.
  - apply Z.div_le_lower_bound; [lia|]. nia.
  - enough ((vn * 2 + 1 * Zpos vd) / Zpos (vd * 2) < hi + 1) by lia.
    apply Z.div_lt_upper_bound; [lia|]. rewrite Pos2Z.inj_mul. nia.
Qed.

Lemma times_between x m :
  0 <= m -> (inject_Z 0 <= x)%Q -> (x <= inject_Z 1)%Q ->
  (inject_Z 0 <= x * (m # 1))%Q /\ (x * (m # 1) <= inject_Z m)%Q.
Proof.
  destruct x as [xn xd]. unfold Qle, inject_Z, Qmult. simpl. intros Hm H0 H1.
  rewrite Pos.mul_1_r. split; nia.
Qed.

Lemma minus_channel x k m :
  0 <= m <= k -> k < 2 ^ 53 ->
  (inject_Z 0 <= x)%Q -> (x <= inject_Z 1)%Q ->
  exists z, mathRound (literalMinus k (timesLiteral (Ratio x) m)) = Fin z
            /\ k - m <= z <= k.
Proof.
  intros Hm Hk H0 H1. simpl.
  destruct (times_between x m ltac:(lia) H0 H1) as [Ht0 Ht1].
  destruct (toBinary64_between (x * (m # 1)) 0 m) as (p & -> & Hp0 & Hp1); [lia..|done|done|].
  simpl.
  destruct (toBinary64_between ((k # 1) - p) (k - m) k) as (v & -> & Hv0 & Hv1); [lia..| | |].
  - destruct p as [pn pd]. unfold Qle, inject_Z, Qminus, Qplus, Qopp in *. simpl in *. nia.
  - destruct p as [pn pd]. unfold Qle, inject_Z, Qminus, Qplus, Qopp in *. simpl in *. nia.
  - by apply mathRound_between.
Qed.

Lemma plus_channel x k m :
  0 <= m -> 0 <= k -> k + m < 2 ^ 53 ->
  (inject_Z 0 <= x)%Q -> (x <= inject_Z 1)%Q ->
  exists z, mathRound (literalPlus k (timesLiteral (Ratio x) m)) = Fin z
            /\ k <= z <= k + m.
Proof.
  intros Hm Hk Hkm H0 H1. simpl.
  destruct (times_between x m ltac:(lia) H0 H1) as [Ht0 Ht1].
  destruct (toBinary64_between (x * (m # 1)) 0 m) as (p & -> & Hp0 & Hp1); [lia..|done|done|].
  simpl.
  destruct (toBinary64_between ((k # 1) + p) k (k + m)) as (v & -> & Hv0 & Hv1); [lia..| | |].
  - destruct p as [pn pd]. unfold Qle, inject_Z, Qplus in *. simpl in *. nia.
  - destruct p as [pn pd]. unfold Qle, inject_Z, Qplus in *. simpl in *. nia.
  - by apply mathRound_between.
Qed.

Lemma toString_nonneg z : 0 <= z -> toString (Fin z) = decimal z.
Proof. intros H. unfold toString. destruct (Z.ltb_spec z 0); [lia | done]. Qed.

Lemma hsl_between dark q :
  (0 <= q)%Q -> (q <= 1)%Q ->
  exists s l,
    backgroundString (colorFromRatio dark (Ratio q))
    = ("hsl(210, " ++ decimal s ++ "%, " ++ decimal l ++ "%)")%string
    /\ 10 <= s <= 50
    /\ if dark then 15 <= l <= 30 else 85 <= l <= 96.
Proof.
  intros H0 H1. unfold backgroundString, roundRatio.
  destruct (toBinary64_between q 0 1) as (x & -> & Hx0 & Hx1); [lia | lia | done | done |].
  unfold getColorFromRatio.
  destruct (minus_channel x 50 40) as (s & -> & Hs); [lia | lia | done | done |].
  destruct dark.
  - destruct (minus_channel x 30 15) as (l & -> & Hl); [lia | lia | done | done |].
    exists s, l. rewrite !toString_nonneg by lia. split; [|done].
    by vm_compute (toString (Fin 210)).
  - destruct (plus_channel x 85 11) as (l & -> & Hl); [lia | lia | lia | done | done |].
    exists s, l. rewrite !toString_nonneg by lia. split; [|done].
    by vm_compute (toString (Fin 210)).
Qed.

(** X15: for a ratio between 0 and 1 the background is
    [hsl(210, s%, l%)] with a saturation [s] between 10 and 50 and a
    lightness [l] between 15 and 30 under the dark theme, between 85 and 96
    under the light one, whatever the rounding of the binary64 operations;
    the newest commits (ratio 0) and the oldest (ratio 1) get the colours
    the comments of the source give. *)
Theorem colours_stay_in_their_range (dark : bool) (q : Q) :
  (0 <= q)%Q -> (q <= 1)%Q ->
  (exists s l,
     backgroundString (colorFromRatio dark (Ratio q))
     = ("hsl(210, " ++ decimal s ++ "%, " ++ decimal l ++ "%)")%string
     /\ 10 <= s <= 50
     /\ if dark then 15 <= l <= 30 else 85 <= l <= 96)
  /\ backgroundString (colorFromRatio true (Ratio (0 # 1))) = "hsl(210, 50%, 30%)"%string
  /\ backgroundString (colorFromRatio true (Ratio (1 # 1))) = "hsl(210, 10%, 15%)"%string
  /\ backgroundString (colorFromRatio false (Ratio (0 # 1))) = "hsl(210, 50%, 85%)"%string
  /\ backgroundString (colorFromRatio false (Ratio (1 # 1))) = "hsl(210, 10%, 96%)"%string.
Proof.
  intros H0 H1. split; [|by vm_compute].
  unfold backgroundString, roundRatio.
  destruct (toBinary64_between q 0 1) as (x & -> & Hx0 & Hx1); [lia | lia | done | done |].
  unfold getColorFromRatio.
  destruct (minus_channel x 50 40) as (s & -> & Hs); [lia | lia | done | done |].
  destruct dark.
  - destruct (minus_channel x 30 15) as (l & -> & Hl); [lia | lia | done | done |].
    exists s, l. rewrite !toString_nonneg by lia. split; [reflexivity | done].
  - destruct (plus_channel x 85 11) as (l & -> & Hl); [lia | lia | lia | done | done |].
    exists s, l. rewrite !toString_nonneg by lia. split; [reflexivity | done].
Qed.

Lemma colours_stay_in_their_range_witness :
  (exists s l,
     backgroundString (colorFromRatio true (Ratio (1 # 2)))
     = ("hsl(210, " ++ decimal s ++ "%, " ++ decimal l ++ "%)")%string
     /\ 10 <= s <= 50
     /\ 15 <= l <= 30)
  /\ backgroundString (colorFromRatio true (Ratio (0 # 1))) = "hsl(210, 50%, 30%)"%string
  /\ backgroundString (colorFromRatio true (Ratio (1 # 1))) = "hsl(210, 10%, 15%)"%string
  /\ backgroundString (colorFromRatio false (Ratio (0 # 1))) = "hsl(210, 50%, 85%)"%string
  /\ backgroundString (colorFromRatio false (Ratio (1 # 1))) = "hsl(210, 10%, 96%)"%string.
Proof.
  apply (colours_stay_in_their_range true (1 # 2)); vm_compute; discriminate.
Defined.

(** X16: under a table whose timestamps span less than 2^53 seconds, the
    background of every decoration is either [transparent] or
    [hsl(210, s%, l%)] with [s] between 10 and 50 and [l] between 15 and 30
    (dark theme) or between 85 and 96 (light theme). *)
Theorem gutter_backgrounds_are_in_range (tz : Z -> Z) (dark : bool) (n : nat)
    (table : list (BlameLine BlameInfo)) (mn mx : Z) (d : Decoration) :
  timeRange table = (Fin mn, Fin mx) ->
  mx - mn < 2 ^ 53 ->
  d ∈ applyDecorations tz dark n table ->
  backgroundString (backgroundColor d) = "transparent"%string
  \/ exists s l,
       backgroundString (backgroundColor d)
       = ("hsl(210, " ++ decimal s ++ "%, " ++ decimal l ++ "%)")%string
       /\ 10 <= s <= 50
       /\ if dark then 15 <= l <= 30 else 85 <= l <= 96.
Proof.
  intros Hrange Hspan Hd. unfold applyDecorations in Hd. rewrite Hrange in Hd.
  apply list_elem_of_fmap in Hd as (i & -> & _). unfold decorate.
  destruct (lineToBlame table !! Fin (Z.of_nat i)) as [b|] eqn:Eb; [|by left].
  destruct (gt (time b) (Fin 0)) eqn:Epos; [right|by left].
  destruct (lineToBlame_elem _ _ _ Eb) as (l & Hl & <- & _).
  destruct (rendered_time _ _ _ _ Hrange Hl Epos) as (t & -> & Ht & _).
  destruct (ageRatio_unit mn mx t Ht Hspan) as (q & -> & Hq0 & Hq1).
  by apply hsl_between.
Qed.

Lemma gutter_backgrounds_are_in_range_witness :
  backgroundString (backgroundColor
    (mkDecoration 1 "1970/01/01 Bob   " (colorFromRatio true (Ratio (1 # 2)))
       (Some "#cccccc"%string))) = "transparent"%string
  \/ exists s l,
       backgroundString (backgroundColor
         (mkDecoration 1 "1970/01/01 Bob   " (colorFromRatio true (Ratio (1 # 2)))
            (Some "#cccccc"%string)))
       = ("hsl(210, " ++ decimal s ++ "%, " ++ decimal l ++ "%)")%string
       /\ 10 <= s <= 50
       /\ 15 <= l <= 30.
Proof.
  apply (gutter_backgrounds_are_in_range UTC true 3 table_with_unset_time 0 200).
  - vm_compute. reflexivity.
  - vm_compute. reflexivity.
  - vm_compute. set_solver.
Defined.

(** ** Binary64 rounding keeps the order *)

(** The exponent chosen for a fraction [n / d] at most 1: with [s] the
    number of binary places kept, the scaled fraction is below [2^53], and
    at least [2^52] unless the number is subnormal. *)
Lemma places_spec n d :
  Zpos n <= Zpos d ->
  let s := - Z.max (log2Q n d - 52) (-1074) in
  52 <= s <= 1074
  /\ Zpos n * 2 ^ s < 2 ^ 53 * Zpos d
  /\ (s < 1074 -> 2 ^ 52 * Zpos d <= Zpos n * 2 ^ s).
Proof.
  intros Hle.
  pose proof (Z.log2_spec (Zpos n) ltac:(lia)) as [Hn1 Hn2].
  pose proof (Z.log2_spec (Zpos d) ltac:(lia)) as [Hd1 Hd2].
  pose proof (Z.log2_nonneg (Zpos n)) as Hln.
  assert (Hmono : Z.log2 (Zpos n) <= Z.log2 (Zpos d)) by (apply Z.log2_le_mono; lia).
  set (ln := Z.log2 (Zpos n)) in *. set (ld := Z.log2 (Zpos d)) in *.
  set (k := ld - ln). assert (Hk : 0 <= k) by lia.
  assert (HA : 0 < 2 ^ ln) by (apply Z.pow_pos_nonneg; lia).
  assert (HP : 0 < 2 ^ k) by (apply Z.pow_pos_nonneg; lia).
  assert (Hld : 2 ^ ld = 2 ^ ln * 2 ^ k) by (rewrite <- Z.pow_add_r by lia; f_equal; lia).
  rewrite !Z.pow_succ_r in * by lia.
  (* the number of places a with d <= n * 2^a < 2 * d *)
  assert (Ha : exists a, log2Q n d = - a /\ 0 <= a
                         /\ Zpos d <= Zpos n * 2 ^ a < 2 * Zpos d).
  { unfold log2Q. fold ln ld. replace (ln - ld) with (- k) by lia.
    rewrite Z.opp_involutive.
    assert (Hcond : (if 0 <=? - k then Zpos d * 2 ^ (- k) <=? Zpos n
                     else Zpos d <=? Zpos n * 2 ^ k)
                    = (Zpos d <=? Zpos n * 2 ^ k)).
    { destruct (Z.leb_spec 0 (- k)); [|done].
      assert (k = 0) as -> by lia. simpl. by rewrite Z.mul_1_r, Z.mul_1_r. }
    rewrite Hcond. destruct (Z.leb_spec (Zpos d) (Zpos n * 2 ^ k)) as [Hc|Hc].
    - exists k. split; [lia|]. split; [done|]. nia.
    - exists (k + 1). split; [lia|]. split; [lia|].
      rewrite Z.pow_add_r by lia. change (2 ^ 1) with 2. nia. }
  destruct Ha as (a & -> & Ha0 & Ha1 & Ha2). intros s.
  destruct (Z_le_gt_dec (52 + a) 1074) as [Hs|Hs].
  - assert (s = 52 + a) as -> by (unfold s; lia).
    rewrite Z.pow_add_r by lia. split; [lia|]. split; [nia|]. intros _. nia.
  - assert (s = 1074) as -> by (unfold s; lia).
    split; [lia|]. split; [|lia].
    assert (Hpow : 2 ^ 1074 * 2 ^ (a - 1022) = 2 ^ 52 * 2 ^ a)
      by (rewrite <- !Z.pow_add_r by lia; f_equal; lia).
    assert (1 <= 2 ^ (a - 1022)) by (apply (Z.pow_le_mono_r 2 0); lia).
    assert (0 < 2 ^ a) by (apply Z.pow_pos_nonneg; lia).
    assert (0 < 2 ^ 1074) by (apply Z.pow_pos_nonneg; lia).
    assert (Zpos n * 2 ^ 1074 <= Zpos n * (2 ^ 52 * 2 ^ a)) by nia.
    nia.
Qed.

Lemma roundHalfEven_mono n1 d1 n2 d2 :
  n1 * Zpos d2 <= n2 * Zpos d1 -> roundHalfEven n1 d1 <= roundHalfEven n2 d2.
Proof.
  intros Hle. unfold roundHalfEven.
  pose proof (Z.div_mod n1 (Zpos d1) ltac:(lia)) as E1.
  pose proof (Z.mod_pos_bound n1 (Zpos d1) ltac:(lia)) as B1.
  pose proof (Z.div_mod n2 (Zpos d2) ltac:(lia)) as E2.
  pose proof (Z.mod_pos_bound n2 (Zpos d2) ltac:(lia)) as B2.
  set (f1 := n1 / Zpos d1) in *. set (r1 := n1 mod Zpos d1) in *.
  set (f2 := n2 / Zpos d2) in *. set (r2 := n2 mod Zpos d2) in *.
  assert (Hf : f1 <= f2).
  { destruct (Z_le_gt_dec f1 f2) as [|Hgt]; [done|exfalso].
    assert (Zpos d1 * Zpos d2 * (f2 + 1) <= Zpos d1 * Zpos d2 * f1) by nia.
    assert (Zpos d1 * r2 < Zpos d1 * Zpos d2) by nia.
    assert (0 <= r1 * Zpos d2) by nia.
    nia. }
  destruct (Z.eq_dec f1 f2) as [Heq|Hne].
  - (* same integer part: compare the remainders *)
    rewrite <- Heq in *. clearbody f1 r1 r2. clear f2 Heq Hf.
    assert (Hr : r1 * Zpos d2 <= r2 * Zpos d1) by nia.
    destruct (Z.ltb_spec (2 * r1) (Zpos d1)), (Z.ltb_spec (Zpos d1) (2 * r1)),
             (Z.ltb_spec (2 * r2) (Zpos d2)), (Z.ltb_spec (Zpos d2) (2 * r2));
      destruct (Z.even f1); try lia; nia.
  - assert (f1 + 1 <= f2) by lia.
    destruct (_ <? _); [|destruct (_ <? _); [|destruct (Z.even f1)]];
      (destruct (_ <? _); [|destruct (_ <? _); [|destruct (Z.even f2)]]); lia.
Qed.

Lemma magnitude64_small n d :
  Zpos n <= Zpos d ->
  magnitude64 n d =
  Some (Qred (roundHalfEven (Zpos n * 2 ^ (- Z.max (log2Q n d - 52) (-1074))) d
              # Z.to_pos (2 ^ (- Z.max (log2Q n d - 52) (-1074))))).
Proof.
  intros Hle. destruct (places_spec n d Hle) as (Hs & _). unfold magnitude64.
  destruct (Z.leb_spec 0 (Z.max (log2Q n d - 52) (-1074))); [lia | reflexivity].
Qed.

(** Rounding to binary64 keeps the order of two fractions between 0 and 1,
    and keeps them between 0 and 1. *)
Lemma toBinary64_mono q1 q2 :
  (0 <= q1)%Q -> (q1 <= q2)%Q -> (q2 <= 1)%Q ->
  exists v1 v2, toBinary64 q1 = Ratio v1 /\ toBinary64 q2 = Ratio v2
                /\ (0 <= v1)%Q /\ (v1 <= v2)%Q /\ (v2 <= 1)%Q.
Proof.
  intros H0 H12 H1.
  destruct (toBinary64_between q2 0 1) as (v2 & Hv2 & Hv20 & Hv21);
    [lia | lia | by (eapply Qle_trans; [exact H0 | exact H12]) | done |].
  destruct q1 as [[|n1|n1] d1].
  - exists (0 # 1), v2. repeat split; try done.
  - destruct q2 as [[|n2|n2] d2]; unfold Qle in H0, H12, H1; simpl in *; try lia.
    clear v2 Hv2 Hv20 Hv21. unfold toBinary64. simpl.
    assert (Hle1 : Zpos n1 <= Zpos d1) by nia.
    assert (Hle2 : Zpos n2 <= Zpos d2) by lia.
    rewrite (magnitude64_small n1 d1 Hle1), (magnitude64_small n2 d2 Hle2).
    destruct (places_spec n1 d1 Hle1) as (Hs1 & Hu1 & Hl1).
    destruct (places_spec n2 d2 Hle2) as (Hs2 & Hu2 & Hl2).
    set (s1 := - Z.max (log2Q n1 d1 - 52) (-1074)) in *.
    set (s2 := - Z.max (log2Q n2 d2 - 52) (-1074)) in *.
    assert (Hp1 : 0 < 2 ^ s1) by (apply Z.pow_pos_nonneg; lia).
    assert (Hp2 : 0 < 2 ^ s2) by (apply Z.pow_pos_nonneg; lia).
    pose proof (roundHalfEven_between (Zpos n1 * 2 ^ s1) d1 0 (2 ^ 53) ltac:(nia)) as Hm1.
    pose proof (roundHalfEven_between (Zpos n2 * 2 ^ s2) d2 0 (2 ^ s2) ltac:(nia)) as Hm2.
    set (m1 := roundHalfEven (Zpos n1 * 2 ^ s1) d1) in *.
    set (m2 := roundHalfEven (Zpos n2 * 2 ^ s2) d2) in *.
    eexists _, _. split; [reflexivity|]. split; [reflexivity|].
    rewrite !Qred_correct. unfold Qle. simpl. rewrite !Z2Pos.id by lia.
    split; [lia|]. split; [|lia].
    destruct (Z.lt_total s1 s2) as [Hlt|[Heq|Hgt]].
    + (* fewer places for the smaller fraction: impossible *)
      exfalso. specialize (Hl1 ltac:(lia)).
      assert (Hsplit : 2 ^ s2 = 2 ^ s1 * 2 ^ (s2 - s1))
        by (rewrite <- Z.pow_add_r by lia; f_equal; lia).
      assert (2 ^ 1 <= 2 ^ (s2 - s1)) by (apply Z.pow_le_mono_r; lia).
      change (2 ^ 1) with 2 in *.
      assert (Zpos n2 * (2 * 2 ^ s1) < 2 ^ 53 * Zpos d2) by nia.
      assert (H52 : 2 ^ 53 = 2 * 2 ^ 52) by reflexivity.
      assert (Zpos n2 * 2 ^ s1 < 2 ^ 52 * Zpos d2) by (rewrite H52 in *; lia).
      assert (2 ^ 52 * Zpos d1 * Zpos d2 <= Zpos n1 * 2 ^ s1 * Zpos d2) by nia.
      assert (Zpos n1 * Zpos d2 * 2 ^ s1 <= Zpos n2 * Zpos d1 * 2 ^ s1) by nia.
      assert (Zpos n2 * 2 ^ s1 * Zpos d1 < 2 ^ 52 * Zpos d2 * Zpos d1) by nia.
      lia.
    + assert (Hm : m1 <= m2).
      { subst m1 m2. apply roundHalfEven_mono. rewrite Heq. nia. }
      rewrite Heq. nia.
    + specialize (Hl2 ltac:(lia)).
      pose proof (roundHalfEven_between (Zpos n2 * 2 ^ s2) d2 (2 ^ 52) (2 ^ s2) ltac:(nia))
        as Hm2'. fold m2 in Hm2'.
      assert (Hsplit : 2 ^ s1 = 2 ^ s2 * 2 ^ (s1 - s2))
        by (rewrite <- Z.pow_add_r by lia; f_equal; lia).
      assert (2 ^ 1 <= 2 ^ (s1 - s2)) by (apply Z.pow_le_mono_r; lia).
      change (2 ^ 1) with 2 in *.
      assert (H52 : 2 ^ 53 = 2 * 2 ^ 52) by reflexivity.
      assert (m1 * 2 ^ s2 <= 2 ^ 53 * 2 ^ s2) by nia.
      assert (2 ^ 52 * 2 ^ s1 <= m2 * 2 ^ s1) by nia.
      assert (2 ^ 53 * 2 ^ s2 <= 2 ^ 52 * 2 ^ s1) by (rewrite H52, Hsplit; nia).
      lia.
  - unfold Qle in H0. simpl in H0. lia.
Qed.

(** X7: in a table whose timestamps span less than 2^53 seconds, the ratio
    the code holds for a rendered line, the binary64 rounding of the
    quotient, lies between 0 and 1, and of two rendered lines the one with
    the older commit has the larger ratio (or the same). *)
Theorem older_lines_get_larger_ratios (tz : Z -> Z) (dark : bool) (n : nat)
    (table : list (BlameLine BlameInfo)) (mn mx : Z) (i1 i2 : nat)
    (b1 b2 : BlameInfo) (t1 t2 : Z) :
  timeRange table = (Fin mn, Fin mx) ->
  mx - mn < 2 ^ 53 ->
  (i1 < n)%nat -> (i2 < n)%nat ->
  lineToBlame table !! Fin (Z.of_nat i1) = Some b1 ->
  lineToBlame table !! Fin (Z.of_nat i2) = Some b2 ->
  time b1 = Fin t1 -> time b2 = Fin t2 ->
  0 < t1 <= t2 ->
  exists d1 d2 r1 r2 v1 v2,
    applyDecorations tz dark n table !! i1 = Some d1
    /\ applyDecorations tz dark n table !! i2 = Some d2
    /\ backgroundColor d1 = colorFromRatio dark r1
    /\ backgroundColor d2 = colorFromRatio dark r2
    /\ roundRatio r1 = Ratio v1
    /\ roundRatio r2 = Ratio v2
    /\ (0 <= v2)%Q /\ (v2 <= v1)%Q /\ (v1 <= 1)%Q.
Proof.
  intros Hrange Hspan Hi1 Hi2 Hb1 Hb2 Ht1 Ht2 Hle.
  destruct (lineToBlame_elem _ _ _ Hb1) as (l1 & Hl1 & <- & _).
  destruct (lineToBlame_elem _ _ _ Hb2) as (l2 & Hl2 & <- & _).
  pose proof (timeRange_Fin_bounds _ _ _ _ _ Hrange Hl1 Ht1) as Hr1.
  pose proof (timeRange_Fin_bounds _ _ _ _ _ Hrange Hl2 Ht2) as Hr2.
  assert (Hpos1 : gt (time (info l1)) (Fin 0) = true)
    by (rewrite Ht1; apply Z.ltb_lt; lia).
  assert (Hpos2 : gt (time (info l2)) (Fin 0) = true)
    by (rewrite Ht2; apply Z.ltb_lt; lia).
  assert (Hq : exists q1 q2,
             ageRatio (Fin mn) (Fin mx) (Fin t1) = Ratio q1
             /\ ageRatio (Fin mn) (Fin mx) (Fin t2) = Ratio q2
             /\ (0 <= q2)%Q /\ (q2 <= q1)%Q /\ (q1 <= 1)%Q).
  { destruct (Z.eq_dec mn mx) as [->|Hne].
    - exists (0 # 1), (0 # 1). rewrite !ageRatio_single by done.
      repeat split; try done; by vm_compute.
    - rewrite !ageRatio_exact by lia. eexists _, _.
      split; [done|]. split; [done|].
      rewrite !Qred_correct. unfold Qle. simpl. rewrite !Z2Pos.id by lia. nia. }
  destruct Hq as (q1 & q2 & Hq1 & Hq2 & H0 & H12 & H1).
  destruct (toBinary64_mono q2 q1 H0 H12 H1) as (v2 & v1 & Hv2 & Hv1 & Hv0 & Hv12 & Hv11).
  exists (decorate tz dark (Fin mn) (Fin mx) (lineToBlame table) i1),
         (decorate tz dark (Fin mn) (Fin mx) (lineToBlame table) i2),
         (Ratio q1), (Ratio q2), v1, v2.
  rewrite !applyDecorations_lookup, Hrange by done. simpl.
  rewrite (decorate_rendered _ _ _ _ _ _ _ Hb1 Hpos1),
          (decorate_rendered _ _ _ _ _ _ _ Hb2 Hpos2). simpl.
  rewrite Ht1, Ht2, Hq1, Hq2. repeat split; done.
Qed.

Lemma older_lines_get_larger_ratios_witness :
  exists d1 d2 r1 r2 v1 v2,
    applyDecorations UTC true 3 table_with_unset_time !! 1%nat = Some d1
    /\ applyDecorations UTC true 3 table_with_unset_time !! 2%nat = Some d2
    /\ backgroundColor d1 = colorFromRatio true r1
    /\ backgroundColor d2 = colorFromRatio true r2
    /\ roundRatio r1 = Ratio v1
    /\ roundRatio r2 = Ratio v2
    /\ (0 <= v2)%Q /\ (v2 <= v1)%Q /\ (v1 <= 1)%Q.
Proof.
  apply (older_lines_get_larger_ratios UTC true 3 table_with_unset_time 0 200 1 2
           (mkBlameInfo hashA "Bob" (Fin 100) None)
           (mkBlameInfo hashB "Carol" (Fin 200) None) 100 200);
    try (vm_compute; reflexivity); lia.
Defined.
